(** * convert_to_traditional.py: the structure-aware text converter

    A shallow embedding of [convert_to_traditional.py] and the properties of
    its scanner, correction pass, line normalisation and per-file driver.

    Python strings are sequences of Unicode code points: a character is its
    code point (an [N]), a string a list of them.  The OpenCC converter
    [cc] is a black box and enters as a section variable that either returns
    a string or raises.  The effects the program has (calls of [cc.convert],
    the files, what is printed, exceptions) are threaded through a small
    state-and-exception monad. *)

From Stdlib Require Import String Ascii DecimalString.
From Stdlib Require Import List Permutation NArith Arith Bool Lia.
Import ListNotations.
Local Open Scope N_scope.

(** ** Characters and strings *)

Definition char := N.
Definition text := list char.

(** A string literal of the source, as code points (ASCII literals only). *)
Definition lit (s : string) : text :=
  map N_of_ascii (list_ascii_of_string s).

Definition backslash : char := 92.   (* the escape marker *)
Definition dquote : char := 34.      (* the double quote *)
Definition squote : char := 39.      (* the single quote *)
Definition LF : char := 10.          (* line feed *)

(** The test of line 63: the character is one of the two quotes. *)
Definition is_quote (c : char) : bool := (c =? dquote) || (c =? squote).

(** ** The string methods of Python the program calls *)

Module PyStr.

(** [str.isspace] on one character: the code points CPython classifies as
    whitespace. *)
Definition isspace (c : char) : bool :=
  ((9 <=? c) && (c <=? 13)) || ((28 <=? c) && (c <=? 32))
  || (c =? 133) || (c =? 160) || (c =? 5760)
  || ((8192 <=? c) && (c <=? 8202))
  || (c =? 8232) || (c =? 8233) || (c =? 8239) || (c =? 8287)
  || (c =? 12288).

(** [s.rstrip()]: drop the longest suffix made of whitespace. *)
Fixpoint rstrip (s : text) : text :=
  match s with
  | [] => []
  | c :: r =>
      match rstrip r with
      | [] => if isspace c then [] else [c]
      | r' => c :: r'
      end
  end.

(** [s.split(sep)] for a one-character separator: always at least one
    piece, the pieces never contain [sep]. *)
Fixpoint split (sep : char) (s : text) : list text :=
  match s with
  | [] => [[]]
  | c :: r =>
      if c =? sep then [] :: split sep r
      else match split sep r with
           | [] => [[c]]
           | piece :: pieces => (c :: piece) :: pieces
           end
  end.

(** [sep.join(parts)] *)
Fixpoint join (sep : text) (parts : list text) : text :=
  match parts with
  | [] => []
  | p :: rest =>
      match rest with
      | [] => p
      | _ :: _ => p ++ sep ++ join sep rest
      end
  end.

(** [s.startswith(pat)] *)
Fixpoint startswith (pat s : text) : bool :=
  match pat, s with
  | [], _ => true
  | _ :: _, [] => false
  | p :: pat', c :: s' => (p =? c) && startswith pat' s'
  end.

(** [s.replace(old, new)]: literal, leftmost, non-overlapping occurrences of
    [old] become [new]; an empty [old] matches before every character and at
    the end.  [skip] counts the characters of a matched occurrence still to
    be passed over. *)
Fixpoint replace_from (old new : text) (skip : nat) (s : text) : text :=
  match s with
  | [] => match old with [] => new | _ :: _ => [] end
  | c :: r =>
      match skip with
      | S k => replace_from old new k r
      | O =>
          match old with
          | [] => new ++ c :: replace_from old new 0 r
          | _ :: old' =>
              if startswith old s
              then new ++ replace_from old new (length old') r
              else c :: replace_from old new 0 r
          end
      end
  end.

Definition replace (s old new : text) : text := replace_from old new 0 s.

End PyStr.

(** ** Manual corrections (lines 14-32) *)

(** [MANUAL_CORRECTIONS], in the insertion order a dict iterates in. *)
Definition MANUAL_CORRECTIONS : list (text * text) :=
  [ ([35023], [35041])    (* U+88CF -> U+88E1 *)
  ; ([29248], [24202])    (* U+7240 -> U+5E8A *)
  ; ([32404], [25165])    (* U+7E94 -> U+624D *)
  ; ([29234], [28858])    (* U+7232 -> U+70BA *)
  ; ([32675], [32676])    (* U+7FA3 -> U+7FA4 *)
  ; ([34886], [30526])    (* U+8846 -> U+773E *)
  ; ([21931], [21507])    (* U+55AB -> U+5403 *)
  ; ([30637], [20102])    (* U+77AD -> U+4E86 *)
  ; ([40692], [38665])    (* U+9EF4 -> U+9709 *)
  ].

(** The loop of [apply_manual_corrections] over a table:
    [for wrong, correct in table.items(): text = text.replace(wrong, correct)] *)
Fixpoint apply_corrections (table : list (text * text)) (t : text) : text :=
  match table with
  | [] => t
  | (wrong, correct) :: table' =>
      apply_corrections table' (PyStr.replace t wrong correct)
  end.

Definition apply_manual_corrections (t : text) : text :=
  apply_corrections MANUAL_CORRECTIONS t.

(** ** Line normalisation (lines 107-109) *)

Definition normalize_lines (converted_text : text) : text :=
  let lines := PyStr.split LF converted_text in
  let lines := map PyStr.rstrip lines in
  PyStr.join [LF] lines.

(** ** Effects: exceptions, the converter's call log, files, output *)

(** A Python exception, carried by what [str(e)] gives. *)
Inductive exn := Exception (msg : text).

Definition str_exn (e : exn) : text := let 'Exception msg := e in msg.

Definition IndexError : exn := Exception (lit "string index out of range").

Definition path := text.

Record World := mkWorld {
  cc_calls : list text;          (* arguments of [cc.convert], in call order *)
  files : path -> option text;   (* text of each file that can be read *)
  writable : path -> bool;       (* whether opening for writing succeeds *)
  io_error : path -> exn;        (* what a failing [open] raises *)
  stdout : list text             (* lines printed so far *)
}.

Inductive outcome (A : Type) :=
| Ok (a : A)
| Raise (e : exn)
| OutOfFuel.
Arguments Ok {A} a.
Arguments Raise {A} e.
Arguments OutOfFuel {A}.

Definition M (A : Type) := World -> outcome A * World.

Definition ret {A} (a : A) : M A := fun w => (Ok a, w).

Definition bind {A B} (m : M A) (k : A -> M B) : M B :=
  fun w =>
    match m w with
    | (Ok a, w') => k a w'
    | (Raise e, w') => (Raise e, w')
    | (OutOfFuel, w') => (OutOfFuel, w')
    end.

Definition raise {A} (e : exn) : M A := fun w => (Raise e, w).

Definition out_of_fuel {A} : M A := fun w => (OutOfFuel, w).

(** [try: body  except Exception as e: handler(e)] *)
Definition try_except {A} (body : M A) (handler : exn -> M A) : M A :=
  fun w =>
    match body w with
    | (Raise e, w') => handler e w'
    | r => r
    end.

Declare Scope py_scope.
Delimit Scope py_scope with py.
Notation "x <- m ;; k" := (bind m (fun x => k))
  (at level 100, m at next level, right associativity) : py_scope.
Notation "m ;;; k" := (bind m (fun _ => k))
  (at level 100, right associativity) : py_scope.
Local Open Scope py_scope.

Definition print (line : text) : M unit :=
  fun w => (Ok tt, mkWorld (cc_calls w) (files w) (writable w) (io_error w)
                           (stdout w ++ [line])).

(** Lines 119-120: open the file for reading and read all of it. *)
Definition read_file (p : path) : M text :=
  fun w =>
    match files w p with
    | Some content => (Ok content, w)
    | None => (Raise (io_error w p), w)
    end.

Definition path_eqb (p q : path) : bool :=
  if list_eq_dec N.eq_dec p q then true else false.

(** Lines 126-127: open the file for writing and write the content. *)
Definition write_file (p : path) (content : text) : M unit :=
  fun w =>
    if writable w p
    then (Ok tt, mkWorld (cc_calls w)
                         (fun q => if path_eqb q p then Some content
                                   else files w q)
                         (writable w) (io_error w) (stdout w))
    else (Raise (io_error w p), w).

(** ** The scanner and the pipeline (lines 34-111) *)

Record ScanState := mkScan {
  result : list text;
  in_string : bool;
  escape_next : bool;
  current_segment : list char;
  string_start_char : option char
}.

Definition initial_state : ScanState := mkScan [] false false [] None.

(** [char == string_start_char] *)
Definition is_start_char (c : char) (start : option char) : bool :=
  match start with
  | Some q => c =? q
  | None => false
  end.

(** The join of [current_segment] with the empty string (lines 67, 78, 97):
    the characters of the buffer, each a string of length one, joined. *)
Definition str_of_chars (cs : list char) : text :=
  PyStr.join [] (map (fun c => [c]) cs).

(** [if current_segment:] *)
Definition nonempty (s : text) : bool :=
  match s with [] => false | _ :: _ => true end.

Section Converter.

(** [cc.convert]: the injected transform; it returns a string or raises. *)
Variable cc : text -> exn + text.

Definition cc_convert (s : text) : M text :=
  fun w =>
    let w' := mkWorld (cc_calls w ++ [s]) (files w) (writable w) (io_error w)
                      (stdout w) in
    match cc s with
    | inr t => (Ok t, w')
    | inl e => (Raise e, w')
    end.

(** One turn of the [while] loop on character [c] (lines 47-93), the
    increment of [i] apart. *)
Definition loop_body (c : char) (st : ScanState) : M ScanState :=
  if escape_next st then
    ret (mkScan (result st) (in_string st) false
                (current_segment st ++ [c]) (string_start_char st))
  else if c =? backslash then
    ret (mkScan (result st) (in_string st) true
                (current_segment st ++ [c]) (string_start_char st))
  else if is_quote c then
    if negb (in_string st) then
      flushed <-
        (if nonempty (current_segment st) then
           converted_segment <- cc_convert (str_of_chars (current_segment st)) ;;
           ret (result st ++ [converted_segment], @nil char)
         else ret (result st, current_segment st)) ;;
      ret (mkScan (fst flushed ++ [[c]]) true (escape_next st)
                  (snd flushed) (Some c))
    else if is_start_char c (string_start_char st) then
      converted_content <- cc_convert (str_of_chars (current_segment st)) ;;
      ret (mkScan (result st ++ [converted_content] ++ [[c]]) false
                  (escape_next st) [] None)
    else
      ret (mkScan (result st) (in_string st) (escape_next st)
                  (current_segment st ++ [c]) (string_start_char st))
  else
    ret (mkScan (result st) (in_string st) (escape_next st)
                (current_segment st ++ [c]) (string_start_char st)).

(** [while i < len(text): char = text[i]; ...; i += 1].  Every branch of the
    body advances [i] by one; [fuel] bounds the number of turns. *)
Fixpoint while_loop (fuel : nat) (t : text) (i : nat) (st : ScanState)
  : M ScanState :=
  if (i <? length t)%nat then
    match fuel with
    | O => out_of_fuel
    | S fuel' =>
        match nth_error t i with
        | None => raise IndexError
        | Some c =>
            st' <- loop_body c st ;;
            while_loop fuel' t (S i) st'
        end
    end
  else ret st.

(** The flush after the loop (lines 95-99). *)
Definition final_flush (st : ScanState) : M (list text) :=
  if nonempty (current_segment st) then
    converted_segment <- cc_convert (str_of_chars (current_segment st)) ;;
    ret (result st ++ [converted_segment])
  else ret (result st).

(** Lines 39-93: the scanner state when the loop has read all of [t]. *)
Definition scan_loop (t : text) : M ScanState :=
  while_loop (length t) t 0 initial_state.

(** Lines 39-99: the list [result] when the scan is over. *)
Definition scan (t : text) : M (list text) :=
  st <- scan_loop t ;;
  final_flush st.

Definition convert_chinese_in_text (t : text) : M text :=
  result <- scan t ;;
  let converted_text := PyStr.join [] result in
  let converted_text := apply_manual_corrections converted_text in
  ret (normalize_lines converted_text).

(** ** The per-file driver (lines 113-132) *)

Definition convert_json_file (file_path : path) : M bool :=
  try_except
    (print (lit "Converting: " ++ file_path) ;;;
     content <- read_file file_path ;;
     converted_content <- convert_chinese_in_text content ;;
     write_file file_path converted_content ;;;
     ret true)
    (fun e =>
       print (lit "Error converting " ++ file_path ++ lit ": "
              ++ firstn 100 (str_exn e)) ;;;
       ret false).

End Converter.

(** ** Vocabulary of the statements *)

(** A transform that never raises, and the identity transform. *)
Definition total_transform (f : text -> text) : text -> exn + text :=
  fun s => inr (f s).

Definition identity_transform : text -> exn + text :=
  total_transform (fun s => s).

(** A transform that raises on every call. *)
Definition failing_transform (e : exn) : text -> exn + text :=
  fun _ => inl e.

(** A world with no files, nothing printed and no call made. *)
Definition quiet_world : World :=
  mkWorld [] (fun _ => None) (fun _ => true) (fun _ => Exception []) [].

(** The quiet world with one file in it. *)
Definition world_with_file (p : path) (content : text) : World :=
  mkWorld [] (fun q => if path_eqb q p then Some content else None)
          (fun _ => true) (fun _ => Exception []) [].

(** A transform that raises [e] on the string [bad] and is the identity on
    every other string. *)
Definition raises_on (bad : text) (e : exn) : text -> exn + text :=
  fun s => if path_eqb s bad then inl e else inr s.

(** A small document, a transform that raises on one of its strings, and a
    world that holds the document as a file. *)
Definition sample_doc : text :=
  lit "{" ++ [dquote] ++ lit "k" ++ [dquote] ++ lit ": "
  ++ [dquote] ++ lit "v" ++ [dquote] ++ lit "}".

Definition sample_error : exn := Exception (lit "no conversion").

Definition sample_cc : text -> exn + text := raises_on (lit "v") sample_error.

Definition sample_world : World := world_with_file (lit "a.json") sample_doc.

(** The world after the calls [calls] of [cc.convert], nothing else changed. *)
Definition log_calls (w : World) (calls : list text) : World :=
  mkWorld (cc_calls w ++ calls) (files w) (writable w) (io_error w) (stdout w).

(** The loop seen as a recursion over the characters still to read. *)
Fixpoint scan_chars (cc : text -> exn + text) (chars : text) (st : ScanState)
  : M ScanState :=
  match chars with
  | [] => ret st
  | c :: rest => st' <- loop_body cc c st ;; scan_chars cc rest st'
  end.

(** Whether the escape flag is set after reading [s], from flag [esc]. *)
Fixpoint esc_after (esc : bool) (s : text) : bool :=
  match s with
  | [] => esc
  | c :: r =>
      if esc then esc_after false r
      else if c =? backslash then esc_after true r
      else esc_after false r
  end.

(** [s] holds no string boundary for a scanner that starts reading it with
    string flag [ins], opening quote [start] and escape flag [esc]: every
    quote in it is escaped or, inside a string, is not the opening quote. *)
Fixpoint no_boundary (ins : bool) (start : option char) (esc : bool)
  (s : text) : bool :=
  match s with
  | [] => true
  | c :: r =>
      if esc then no_boundary ins start false r
      else if c =? backslash then no_boundary ins start true r
      else if is_quote c
           then ins && negb (is_start_char c start)
                && no_boundary ins start false r
           else no_boundary ins start false r
  end.

(** The characters after an opening quote [q] hold no closing delimiter. *)
Definition unclosed (q : char) (rest : text) : bool :=
  no_boundary true (Some q) false rest.

(** What a guarded flush passes on: the buffer, when it is not empty. *)
Definition flushed (s : text) : list text :=
  if nonempty s then [s] else [].

(** The call [s] of the transform returns. *)
Definition returns (cc : text -> exn + text) (s : text) : Prop :=
  exists r, cc s = inr r.

(** The calls [calls] explain the outcome [o]: all return when [o] is a
    value; when [o] is an exception the last call raised it and the ones
    before returned; fuel never runs out. *)
Definition explains {A} (cc : text -> exn + text) (calls : list text)
  (o : outcome A) : Prop :=
  match o with
  | Ok _ => Forall (returns cc) calls
  | Raise e =>
      exists before s,
        calls = before ++ [s] /\ Forall (returns cc) before /\ cc s = inl e
  | OutOfFuel => False
  end.

(** A computation that touches the world only by calling the transform, and
    whose calls and outcome do not depend on the world it starts in. *)
Definition only_calls {A} (cc : text -> exn + text) (m : M A) : Prop :=
  exists calls o,
    (forall w, m w = (o, log_calls w calls)) /\ explains cc calls o.

(** *** The statements of the specification that the code departs from *)

(** Trailing-whitespace removal limited to spaces and tabs. *)
Definition is_space_or_tab (c : char) : bool := (c =? 32) || (c =? 9).

Fixpoint rstrip_spaces_tabs (s : text) : text :=
  match s with
  | [] => []
  | c :: r =>
      match rstrip_spaces_tabs r with
      | [] => if is_space_or_tab c then [] else [c]
      | r' => c :: r'
      end
  end.

Definition normalize_lines_spaces_tabs (x : text) : text :=
  PyStr.join [LF] (map rstrip_spaces_tabs (PyStr.split LF x)).

(** An unterminated string scans to two segments, an empty structural one
    and the string. *)
Definition unterminated_gives_two_segments (cc : text -> exn + text)
  (q : char) (rest : text) : Prop :=
  exists r w',
    scan cc (q :: rest) quiet_world = (Ok r, w')
    /\ cc_calls w' = [[]; rest].

(** The pair of a backslash and a quote after [pre] is never a boundary. *)
Definition pair_never_boundary (cc : text -> exn + text) (pre : text)
  (q : char) : Prop :=
  forall st1 w1 st2 w2,
    scan_loop cc pre quiet_world = (Ok st1, w1) ->
    scan_loop cc (pre ++ [backslash; q]) quiet_world = (Ok st2, w2) ->
    result st2 = result st1 /\ in_string st2 = in_string st1
    /\ current_segment st2 = current_segment st1 ++ [backslash; q].

(** The transform is never handed an empty string while [t] is scanned. *)
Definition never_called_on_empty (cc : text -> exn + text) (t : text)
  : Prop :=
  forall o w', scan cc t quiet_world = (o, w') ->
               Forall (fun s => s <> []) (cc_calls w').

(** ** The batch driver (lines 134-161) *)

(** [str(n)] of a count, as the f-strings of [main] format it: its decimal
    digits. *)
Definition str_of_nat (n : nat) : text :=
  lit (NilZero.string_of_uint (Nat.to_uint n)).

Definition check_mark : char := 10003.     (* U+2713 *)
Definition warning_sign : char := 9888.    (* U+26A0 *)

Section Batch.

Variable cc : text -> exn + text.

(** [json_file.name]: the last component of a path, as pathlib gives it. *)
Variable path_name : path -> text.

(** The loop of lines 148-152 over the files still to convert. *)
Fixpoint convert_all (json_files : list path) (success_count : nat)
  (failed_files : list text) : M (nat * list text) :=
  match json_files with
  | [] => ret (success_count, failed_files)
  | json_file :: rest =>
      converted <- convert_json_file cc json_file ;;
      if converted : bool
      then convert_all rest (success_count + 1) failed_files
      else convert_all rest success_count
                       (failed_files ++ [path_name json_file])
  end.

(** The loop of lines 158-159. *)
Fixpoint print_names (names : list text) : M unit :=
  match names with
  | [] => ret tt
  | filename :: rest => print (lit "  - " ++ filename) ;;; print_names rest
  end.

(** Lines 156-161. *)
Definition report_failures (failed_files : list text) : M unit :=
  match failed_files with
  | [] => ret tt
  | _ :: _ =>
      print ([LF; warning_sign] ++ lit " Failed files ("
             ++ str_of_nat (length failed_files) ++ lit "):") ;;;
      print_names (firstn 10 failed_files) ;;;
      if (10 <? length failed_files)%nat
      then print (lit "  ... and " ++ str_of_nat (length failed_files - 10)
                  ++ lit " more")
      else ret tt
  end.

(** [main], given what the two globs of lines 140-141 match. *)
Definition main (root_json config_json : list path) : M unit :=
  let json_files := ([] ++ root_json) ++ config_json in
  print (lit "Found " ++ str_of_nat (length json_files)
         ++ lit " JSON files to convert" ++ [LF]) ;;;
  counts <- convert_all json_files 0 [] ;;
  let success_count := fst counts in
  let failed_files := snd counts in
  print ([LF; check_mark] ++ lit " Successfully converted "
         ++ str_of_nat success_count ++ lit "/"
         ++ str_of_nat (length json_files) ++ lit " files") ;;;
  report_failures failed_files.

End Batch.

(** ** Vocabulary of the further properties *)

(** What the correction table does to one character. *)
Definition manual_correction (c : char) : char :=
  if c =? 35023 then 35041
  else if c =? 29248 then 24202
  else if c =? 32404 then 25165
  else if c =? 29234 then 28858
  else if c =? 32675 then 32676
  else if c =? 34886 then 30526
  else if c =? 21931 then 21507
  else if c =? 30637 then 20102
  else if c =? 40692 then 38665
  else c.

(** The characters the table replaces. *)
Definition wrong_chars : list char :=
  [35023; 29248; 32404; 29234; 32675; 34886; 21931; 30637; 40692].

(** A table that replaces single characters by single characters, and the
    first replacement such a table holds for a character. *)
Definition char_table (pairs : list (char * char)) : list (text * text) :=
  map (fun kv => ([fst kv], [snd kv])) pairs.

Fixpoint lookup_char (pairs : list (char * char)) (c : char) : char :=
  match pairs with
  | [] => c
  | (k, v) :: rest => if c =? k then v else lookup_char rest c
  end.

Definition manual_pairs : list (char * char) :=
  [(35023, 35041); (29248, 24202); (32404, 25165); (29234, 28858);
   (32675, 32676); (34886, 30526); (21931, 21507); (30637, 20102);
   (40692, 38665)].

(** A piece of a scanned text: a segment handed to the transform, or a quote
    that delimits a string. *)
Inductive piece :=
| Segment (content : text)
| Delimiter (q : char).

Definition piece_source (p : piece) : text :=
  match p with Segment s => s | Delimiter q => [q] end.

Definition piece_output (f : text -> text) (p : piece) : text :=
  match p with Segment s => f s | Delimiter q => [q] end.

Definition piece_calls (ps : list piece) : list text :=
  flat_map (fun p => match p with Segment s => [s] | Delimiter _ => [] end) ps.

(** A delimiter is one of the two quotes. *)
Definition delimiter_is_quote (p : piece) : bool :=
  match p with Segment _ => true | Delimiter q => is_quote q end.

(** The transform made total: where [cc] raises, the argument is returned. *)
Definition completion (cc : text -> exn + text) : text -> text :=
  fun s => match cc s with inr t => t | inl _ => s end.

(** [m] runs as [m'], which returns, or raises after a part of the calls
    [m'] makes. *)
Definition runs_as_far_as {A} (m m' : M A) : Prop :=
  exists calls' a',
    (forall w, m' w = (Ok a', log_calls w calls'))
    /\ ((forall w, m w = (Ok a', log_calls w calls'))
        \/ exists e calls rest,
             calls' = calls ++ rest
             /\ forall w, m w = (Raise e, log_calls w calls)).

(** What the pipeline makes of [content], when it does not raise. *)
Definition converted_text (cc : text -> exn + text) (content : text)
  : option text :=
  match fst (convert_chinese_in_text cc content quiet_world) with
  | Ok r => Some r
  | _ => None
  end.

(** Whether [convert_json_file] succeeds on [p] in world [w]: the file can be
    read, its conversion does not raise and it can be written. *)
Definition converts (cc : text -> exn + text) (w : World) (p : path) : bool :=
  match files w p with
  | Some content =>
      match converted_text cc content with
      | Some _ => writable w p
      | None => false
      end
  | None => false
  end.

(** The content of [p] once [convert_json_file] has run on it in [w]. *)
Definition file_after (cc : text -> exn + text) (w : World) (p : path)
  : option text :=
  match files w p with
  | Some content =>
      match converted_text cc content with
      | Some r => if writable w p then Some r else Some content
      | None => Some content
      end
  | None => None
  end.

(** A world whose one file cannot be written. *)
Definition read_only_world (p : path) (content : text) : World :=
  mkWorld [] (fun q => if path_eqb q p then Some content else None)
          (fun _ => false) (fun _ => Exception (lit "Permission denied")) [].

(** A world with three files; [sample_cc] raises on the second. *)
Definition batch_world : World :=
  mkWorld []
          (fun q => if path_eqb q (lit "a.json") then Some [35023; 32]
                    else if path_eqb q (lit "b.json") then Some sample_doc
                    else if path_eqb q (lit "c.json") then Some (lit "{}")
                    else None)
          (fun _ => true) (fun _ => Exception []) [].

Definition batch_files : list path :=
  [lit "a.json"; lit "b.json"; lit "c.json"].

(** The arguments of the calls the pipeline makes on [content]. *)
Definition conversion_calls (cc : text -> exn + text) (content : text)
  : list text :=
  cc_calls (snd (convert_chinese_in_text cc content quiet_world)).

(** The lines the drivers print. *)
Definition converting_line (p : path) : text := lit "Converting: " ++ p.

Definition error_line (p : path) (e : exn) : text :=
  lit "Error converting " ++ p ++ lit ": " ++ firstn 100 (str_exn e).

Definition found_line (total : nat) : text :=
  lit "Found " ++ str_of_nat total ++ lit " JSON files to convert" ++ [LF].

Definition summary_line (success_count total : nat) : text :=
  [LF; check_mark] ++ lit " Successfully converted "
  ++ str_of_nat success_count ++ lit "/" ++ str_of_nat total ++ lit " files".

(** The lines [report_failures] prints. *)
Definition failure_report (failed_files : list text) : list text :=
  match failed_files with
  | [] => []
  | _ :: _ =>
      (([LF; warning_sign] ++ lit " Failed files ("
        ++ str_of_nat (length failed_files) ++ lit "):")
       :: map (fun filename => lit "  - " ++ filename)
              (firstn 10 failed_files))
      ++ (if (10 <? length failed_files)%nat
          then [lit "  ... and " ++ str_of_nat (length failed_files - 10)
                ++ lit " more"]
          else [])
  end.

(** The world with [lines] printed after what was printed before. *)
Definition print_lines (w : World) (lines : list text) : World :=
  mkWorld (cc_calls w) (files w) (writable w) (io_error w)
          (stdout w ++ lines).

(** * Properties *)

(** ** Python string methods *)

Section StringFacts.

Import PyStr.

Lemma split_nonempty (sep : char) (s : text) : split sep s <> [].
Proof.
  induction s as [|c r IH]; simpl; [discriminate|].
  destruct (c =? sep); [discriminate|].
  destruct (split sep r); discriminate.
Qed.

Lemma split_no_sep (sep : char) (s : text) :
  Forall (fun piece => ~ In sep piece) (split sep s).
Proof.
  induction s as [|c r IH]; simpl.
  - constructor; [intros []|constructor].
  - destruct (N.eqb_spec c sep) as [->|Hne].
    + constructor; [intros []|exact IH].
    + destruct (split sep r) as [|piece pieces].
      * constructor; [|constructor]. intros [H|[]]. congruence.
      * inversion IH as [|? ? Hp Hps]; subst.
        constructor; [|exact Hps].
        intros [H|H]; [congruence|exact (Hp H)].
Qed.

Lemma split_app_sep (sep : char) (p s : text) :
  ~ In sep p -> split sep (p ++ sep :: s) = p :: split sep s.
Proof.
  induction p as [|c p IH]; simpl; intros Hp.
  - now rewrite N.eqb_refl.
  - destruct (N.eqb_spec c sep) as [->|Hne]; [exfalso; auto|].
    rewrite IH by auto. reflexivity.
Qed.

Lemma split_no_sep_id (sep : char) (p : text) :
  ~ In sep p -> split sep p = [p].
Proof.
  induction p as [|c p IH]; simpl; intros Hp; [reflexivity|].
  destruct (N.eqb_spec c sep) as [->|Hne]; [exfalso; auto|].
  rewrite IH by auto. reflexivity.
Qed.

(** Splitting undoes joining, as long as no piece holds the separator. *)
Lemma split_join (sep : char) (parts : list text) :
  parts <> [] ->
  Forall (fun piece => ~ In sep piece) parts ->
  split sep (join [sep] parts) = parts.
Proof.
  induction parts as [|p rest IH]; intros Hne Hall; [congruence|].
  inversion Hall as [|? ? Hp Hrest]; subst.
  destruct rest as [|p' rest'].
  - simpl. now apply split_no_sep_id.
  - change (join [sep] (p :: p' :: rest'))
      with (p ++ sep :: join [sep] (p' :: rest')).
    rewrite split_app_sep by exact Hp.
    rewrite IH; [reflexivity|discriminate|exact Hrest].
Qed.

(** Joining undoes splitting. *)
Lemma join_split (sep : char) (s : text) : join [sep] (split sep s) = s.
Proof.
  induction s as [|c r IH]; [reflexivity|].
  simpl split. destruct (N.eqb_spec c sep) as [->|Hne].
  - pose proof (split_nonempty sep r) as Hne.
    destruct (split sep r) as [|p ps]; [congruence|].
    simpl in *. now rewrite IH.
  - pose proof (split_nonempty sep r) as Hne'.
    destruct (split sep r) as [|p ps]; [congruence|].
    destruct ps; simpl in *; now rewrite <- IH.
Qed.

Lemma join_nil_concat (parts : list text) : join [] parts = concat parts.
Proof.
  induction parts as [|p rest IH]; [reflexivity|].
  simpl. destruct rest; [now rewrite app_nil_r|].
  now rewrite IH.
Qed.

(** [rstrip] cuts a suffix of whitespace off, and what is left does not end
    in whitespace. *)
Lemma rstrip_spec (s : text) :
  exists ws, s = rstrip s ++ ws
             /\ forallb isspace ws = true
             /\ (rstrip s = [] \/
                 exists body c, rstrip s = body ++ [c] /\ isspace c = false).
Proof.
  induction s as [|c r (ws & Heq & Hws & Hend)]; simpl.
  - exists []. auto.
  - destruct (rstrip r) as [|c' r'] eqn:Hr.
    + simpl in Heq. subst ws. destruct (isspace c) eqn:Hc.
      * exists (c :: r). simpl. rewrite Hc, Hws. auto.
      * exists r. split; [reflexivity|]. split; [exact Hws|].
        right. exists [], c. auto.
    + exists ws. split; [simpl; f_equal; exact Heq|]. split; [exact Hws|].
      right. destruct Hend as [Hend|(body & d & Hbody & Hd)]; [discriminate|].
      exists (c :: body), d. simpl. now rewrite Hbody.
Qed.

Lemma rstrip_In (s : text) (c : char) : In c (rstrip s) -> In c s.
Proof.
  destruct (rstrip_spec s) as (ws & Heq & _). intros H.
  rewrite Heq. apply in_or_app. now left.
Qed.

Lemma rstrip_app_nonspace (body : text) (c : char) :
  isspace c = false -> rstrip (body ++ [c]) = body ++ [c].
Proof.
  intros Hc. induction body as [|b body IH]; simpl.
  - now rewrite Hc.
  - rewrite IH. destruct (body ++ [c]) eqn:E; [|reflexivity].
    destruct body; discriminate.
Qed.

Lemma rstrip_idempotent (s : text) : rstrip (rstrip s) = rstrip s.
Proof.
  destruct (rstrip_spec s) as (ws & _ & _ & [H|(body & c & H & Hc)]).
  - now rewrite H.
  - rewrite H. now apply rstrip_app_nonspace.
Qed.

Lemma rstrip_all_space (ws : text) :
  forallb isspace ws = true -> rstrip ws = [].
Proof.
  induction ws as [|c r IH]; simpl; [reflexivity|].
  intros H. apply andb_true_iff in H as [Hc Hr].
  now rewrite (IH Hr), Hc.
Qed.

(** The decomposition of [rstrip_spec] determines the result. *)
Lemma rstrip_app_space (s ws : text) :
  forallb isspace ws = true -> rstrip (s ++ ws) = rstrip s.
Proof.
  intros Hws. induction s as [|c r IH]; simpl.
  - now apply rstrip_all_space.
  - now rewrite IH.
Qed.

End StringFacts.

(** ** The correction pass *)

Lemma apply_corrections_app (t1 t2 : list (text * text)) (x : text) :
  apply_corrections (t1 ++ t2) x
  = apply_corrections t2 (apply_corrections t1 x).
Proof.
  revert x. induction t1 as [|[wrong correct] t1 IH]; intros x; simpl.
  - reflexivity.
  - apply IH.
Qed.

(** C6. The correction pass replaces literally, pair after pair in table
    order, each pair working on the text the pairs before it left: a table
    in two parts acts as the first part followed by the second, one pair is
    one [str.replace], and the table [("ab","x"), ("x","y")] sends "ab" to
    "y" while the same pairs in the other order send it to "x".  The
    program runs this loop over [MANUAL_CORRECTIONS]. *)
Theorem corrections_apply_in_table_order :
  (forall (t1 t2 : list (text * text)) (x : text),
      apply_corrections (t1 ++ t2) x
      = apply_corrections t2 (apply_corrections t1 x))
  /\ (forall (wrong correct : text) (table : list (text * text)) (x : text),
         apply_corrections ((wrong, correct) :: table) x
         = apply_corrections table (PyStr.replace x wrong correct))
  /\ PyStr.replace (lit "ab") (lit "ab") (lit "x") = lit "x"
  /\ PyStr.replace (lit "x") (lit "x") (lit "y") = lit "y"
  /\ apply_corrections [(lit "ab", lit "x"); (lit "x", lit "y")] (lit "ab")
     = lit "y"
  /\ apply_corrections [(lit "x", lit "y"); (lit "ab", lit "x")] (lit "ab")
     = lit "x"
  /\ (forall x : text,
         apply_manual_corrections x = apply_corrections MANUAL_CORRECTIONS x).
Proof.
  split; [exact apply_corrections_app|].
  repeat split; reflexivity.
Qed.

(** ** Line normalisation *)

Lemma str_of_chars_id (cs : list char) : str_of_chars cs = cs.
Proof.
  unfold str_of_chars. rewrite join_nil_concat.
  induction cs as [|c cs IH]; simpl; [reflexivity|now rewrite IH].
Qed.

Lemma normalized_lines_nonempty (x : text) :
  map PyStr.rstrip (PyStr.split LF x) <> [].
Proof.
  pose proof (split_nonempty LF x) as H.
  destruct (PyStr.split LF x); [congruence|discriminate].
Qed.

Lemma normalized_lines_no_LF (x : text) :
  Forall (fun piece => ~ In LF piece) (map PyStr.rstrip (PyStr.split LF x)).
Proof.
  apply Forall_map.
  eapply Forall_impl; [|apply split_no_sep].
  intros line Hline Hin. apply Hline. now apply rstrip_In.
Qed.

(** The lines of the normalised text are the stripped lines of the text. *)
Lemma split_normalize_lines (x : text) :
  PyStr.split LF (normalize_lines x) = map PyStr.rstrip (PyStr.split LF x).
Proof.
  unfold normalize_lines. apply split_join.
  - apply normalized_lines_nonempty.
  - apply normalized_lines_no_LF.
Qed.

Lemma normalize_lines_twice (x : text) :
  normalize_lines (normalize_lines x) = normalize_lines x.
Proof.
  unfold normalize_lines at 1. rewrite split_normalize_lines.
  rewrite map_map. unfold normalize_lines. f_equal.
  apply map_ext. intros line. apply rstrip_idempotent.
Qed.

(** C8. Line normalisation is idempotent: normalising a normalised text
    changes nothing. *)
Theorem normalize_lines_idempotent (x : text) :
  normalize_lines (normalize_lines x) = normalize_lines x.
Proof.
  unfold normalize_lines at 1. rewrite split_normalize_lines.
  rewrite map_map. unfold normalize_lines. f_equal.
  apply map_ext. intros line. apply rstrip_idempotent.
Qed.

Lemma isspace_iff (c : char) :
  PyStr.isspace c = true <->
  In c [9; 10; 11; 12; 13; 28; 29; 30; 31; 32; 133; 160; 5760;
        8192; 8193; 8194; 8195; 8196; 8197; 8198; 8199; 8200; 8201; 8202;
        8232; 8233; 8239; 8287; 12288].
Proof.
  unfold PyStr.isspace. cbn [In].
  repeat rewrite orb_true_iff. repeat rewrite andb_true_iff.
  repeat rewrite N.leb_le. repeat rewrite N.eqb_eq.
  unfold char in *. lia.
Qed.

Lemma space_or_tab_isspace (c : char) :
  is_space_or_tab c = true -> PyStr.isspace c = true.
Proof.
  unfold is_space_or_tab. rewrite orb_true_iff, !N.eqb_eq.
  intros [->| ->]; reflexivity.
Qed.

(** On a line whose whitespace is spaces and tabs only, [rstrip] removes
    spaces and tabs only. *)
Lemma rstrip_spaces_tabs_agree (s : text) :
  Forall (fun c => PyStr.isspace c = true -> is_space_or_tab c = true) s ->
  PyStr.rstrip s = rstrip_spaces_tabs s.
Proof.
  induction 1 as [|c r Hc Hr IH]; simpl; [reflexivity|].
  rewrite <- IH. destruct (PyStr.rstrip r); [|reflexivity].
  destruct (PyStr.isspace c) eqn:E.
  - now rewrite Hc.
  - destruct (is_space_or_tab c) eqn:E'; [|reflexivity].
    apply space_or_tab_isspace in E'. congruence.
Qed.

(** The carriage return of a CRLF line end is removed with the spaces
    before it. *)
Lemma normalize_lines_strips_CR :
  normalize_lines [97; 32; 13; 10; 98] = [97; 10; 98].
Proof. reflexivity. Qed.

(** C9, as the specification words it, fails: a carriage return at the end
    of a line is neither a space nor a tab, and is removed. *)
Lemma normalize_lines_not_only_spaces_tabs :
  normalize_lines [97; 13] <> normalize_lines_spaces_tabs [97; 13].
Proof. vm_compute. discriminate. Qed.

(** C9, amended. The text is split at line feeds (it is its lines joined by
    line feeds, and no line holds one), each line loses its longest suffix
    of whitespace in the sense of [str.isspace] -- spaces and tabs, and
    also carriage return, vertical tab, form feed, the separators 28-31,
    NEL, the no-break space and the Unicode spaces up to the ideographic
    space -- and nothing else: what is kept is a prefix of the line that is
    empty or ends in a character that is not whitespace.  The lines are
    joined again with line feeds. *)
Theorem normalize_lines_scope (x : text) :
  PyStr.join [LF] (PyStr.split LF x) = x
  /\ Forall (fun line => ~ In LF line) (PyStr.split LF x)
  /\ PyStr.split LF (normalize_lines x)
     = map PyStr.rstrip (PyStr.split LF x)
  /\ normalize_lines x
     = PyStr.join [LF] (map PyStr.rstrip (PyStr.split LF x))
  /\ (forall line : text,
         exists ws,
           line = PyStr.rstrip line ++ ws
           /\ forallb PyStr.isspace ws = true
           /\ (PyStr.rstrip line = [] \/
               exists body c, PyStr.rstrip line = body ++ [c]
                              /\ PyStr.isspace c = false))
  /\ (forall c : char,
         PyStr.isspace c = true <->
         In c [9; 10; 11; 12; 13; 28; 29; 30; 31; 32; 133; 160; 5760;
               8192; 8193; 8194; 8195; 8196; 8197; 8198; 8199; 8200; 8201;
               8202; 8232; 8233; 8239; 8287; 12288]).
Proof.
  split; [apply join_split|].
  split; [apply split_no_sep|].
  split; [apply split_normalize_lines|].
  split; [reflexivity|].
  split; [apply rstrip_spec|apply isspace_iff].
Qed.

(** Where the only whitespace of the text is spaces, tabs and line feeds,
    normalisation is the removal of trailing spaces and tabs. *)
Lemma normalize_lines_spaces_tabs_agree (x : text) :
  Forall (fun c => PyStr.isspace c = true ->
                   is_space_or_tab c = true \/ c = LF) x ->
  normalize_lines x = normalize_lines_spaces_tabs x.
Proof.
  intros Hx. unfold normalize_lines, normalize_lines_spaces_tabs. f_equal.
  apply map_ext_in. intros line Hline. apply rstrip_spaces_tabs_agree.
  apply Forall_forall. intros c Hc Hsp.
  assert (Hin : In c x).
  { rewrite <- (join_split LF x).
    clear - Hline Hc. induction (PyStr.split LF x) as [|p rest IH];
      [contradiction|].
    destruct Hline as [->|Hline].
    - destruct rest; simpl; [exact Hc|apply in_or_app; now left].
    - destruct rest as [|p' rest']; [contradiction|].
      change (In c (p ++ LF :: PyStr.join [LF] (p' :: rest'))).
      apply in_or_app. right. right. now apply IH. }
  rewrite Forall_forall in Hx. destruct (Hx c Hin Hsp) as [H|H]; [exact H|].
  subst c. exfalso.
  pose proof (split_no_sep LF x) as Hno. rewrite Forall_forall in Hno.
  exact (Hno line Hline Hc).
Qed.

(** ** The call log *)

Lemma log_calls_nil (w : World) : log_calls w [] = w.
Proof. destruct w. unfold log_calls. simpl. now rewrite app_nil_r. Qed.

Lemma log_calls_app (w : World) (a b : list text) :
  log_calls (log_calls w a) b = log_calls w (a ++ b).
Proof. unfold log_calls. simpl. now rewrite app_assoc. Qed.

Lemma log_calls_quiet (calls : list text) :
  cc_calls (log_calls quiet_world calls) = calls.
Proof. reflexivity. Qed.

(** ** The loop reads the characters in order *)

Section Loop.

Variable cc : text -> exn + text.

Lemma nth_error_skipn (t : text) (i : nat) :
  (i < length t)%nat ->
  exists c, nth_error t i = Some c /\ skipn i t = c :: skipn (S i) t.
Proof.
  revert i. induction t as [|a t IH]; intros i Hi; simpl in Hi; [lia|].
  destruct i as [|i].
  - exists a. auto.
  - destruct (IH i) as (c & Hn & Hs); [lia|].
    exists c. split; [exact Hn|exact Hs].
Qed.

(** With fuel for the characters left, the [while] loop is the recursion
    over them: it neither runs out of fuel nor indexes out of range. *)
Lemma while_loop_scan_chars (fuel : nat) (t : text) (i : nat)
  (st : ScanState) (w : World) :
  (length t - i <= fuel)%nat ->
  while_loop cc fuel t i st w = scan_chars cc (skipn i t) st w.
Proof.
  revert i st w. induction fuel as [|fuel IH]; intros i st w Hfuel;
    simpl; destruct (Nat.ltb_spec i (length t)) as [Hi|Hi].
  - lia.
  - now rewrite skipn_all2.
  - destruct (nth_error_skipn t i Hi) as (c & -> & ->).
    simpl. unfold bind.
    destruct (loop_body cc c st w) as [[st'| |] w']; try reflexivity.
    apply IH. lia.
  - now rewrite skipn_all2.
Qed.

Lemma scan_loop_scan_chars (t : text) (w : World) :
  scan_loop cc t w = scan_chars cc t initial_state w.
Proof.
  unfold scan_loop. rewrite while_loop_scan_chars by lia. reflexivity.
Qed.

Lemma scan_chars_app (a b : text) (st : ScanState) (w : World) :
  scan_chars cc (a ++ b) st w
  = bind (scan_chars cc a st) (scan_chars cc b) w.
Proof.
  revert st w. induction a as [|c a IH]; intros st w; simpl.
  - reflexivity.
  - unfold bind.
    destruct (loop_body cc c st w) as [[st'| |] w']; try reflexivity.
    rewrite IH. reflexivity.
Qed.

(** Characters that hold no boundary are appended to the buffer: nothing is
    flushed, no delimiter is emitted, the transform is not called. *)
Lemma scan_chars_no_boundary (chars : text) (st : ScanState) (w : World) :
  no_boundary (in_string st) (string_start_char st) (escape_next st) chars
  = true ->
  scan_chars cc chars st w
  = (Ok (mkScan (result st) (in_string st) (esc_after (escape_next st) chars)
                (current_segment st ++ chars) (string_start_char st)), w).
Proof.
  revert st. induction chars as [|c chars IH]; intros [res ins esc seg start];
    simpl; intros H.
  - now rewrite app_nil_r.
  - unfold loop_body, bind, ret; simpl.
    destruct esc.
    + rewrite IH by exact H. simpl. now rewrite <- app_assoc.
    + destruct (c =? backslash).
      * rewrite IH by exact H. simpl. now rewrite <- app_assoc.
      * destruct (is_quote c).
        -- apply andb_true_iff in H as [H1 H].
           apply andb_true_iff in H1 as [H0 H1]. subst ins. simpl.
           apply negb_true_iff in H1. rewrite H1.
           rewrite IH by exact H. simpl. now rewrite <- app_assoc.
        -- rewrite IH by exact H. simpl. now rewrite <- app_assoc.
Qed.

(** *** Everything the scanner does to the world is calling the transform *)

Lemma only_calls_ret {A} (a : A) : only_calls cc (ret a).
Proof.
  exists [], (Ok a). split; [|constructor].
  intros w. unfold ret. now rewrite log_calls_nil.
Qed.

Lemma only_calls_bind {A B} (m : M A) (k : A -> M B) :
  only_calls cc m -> (forall a, only_calls cc (k a)) ->
  only_calls cc (bind m k).
Proof.
  intros (c1 & o1 & Hm & He) Hk. destruct o1 as [a|e|].
  - destruct (Hk a) as (c2 & o2 & Hk2 & He2).
    exists (c1 ++ c2), o2. split.
    + intros w. unfold bind. now rewrite Hm, Hk2, log_calls_app.
    + destruct o2; simpl in *.
      * apply Forall_app. auto.
      * destruct He2 as (before & s & -> & Hb & Hs).
        exists (c1 ++ before), s. rewrite app_assoc. repeat split; auto.
        apply Forall_app. auto.
      * exact He2.
  - exists c1, (Raise e). split; [|exact He].
    intros w. unfold bind. now rewrite Hm.
  - contradiction.
Qed.

Lemma only_calls_cc_convert (s : text) : only_calls cc (cc_convert cc s).
Proof.
  unfold cc_convert. destruct (cc s) as [e|r] eqn:E.
  - exists [s], (Raise e). split; [reflexivity|]. exists [], s. auto.
  - exists [s], (Ok r). split; [reflexivity|].
    constructor; [now exists r|constructor].
Qed.

Lemma only_calls_loop_body (c : char) (st : ScanState) :
  only_calls cc (loop_body cc c st).
Proof.
  unfold loop_body.
  repeat match goal with
         | |- only_calls _ (if ?b then _ else _) => destruct b
         | |- only_calls _ (ret _) => apply only_calls_ret
         | |- only_calls _ (bind _ _) => apply only_calls_bind
         | |- only_calls _ (cc_convert _ _) => apply only_calls_cc_convert
         | |- forall _, _ => intro
         end.
Qed.

Lemma only_calls_scan_chars (chars : text) (st : ScanState) :
  only_calls cc (scan_chars cc chars st).
Proof.
  revert st. induction chars as [|c chars IH]; intros st; simpl.
  - apply only_calls_ret.
  - apply only_calls_bind; [apply only_calls_loop_body|exact IH].
Qed.

Lemma only_calls_ext {A} (m m' : M A) :
  (forall w, m w = m' w) -> only_calls cc m' -> only_calls cc m.
Proof.
  intros E (calls & o & H & He). exists calls, o. split; [|exact He].
  intros w. now rewrite E.
Qed.

Lemma only_calls_scan_loop (t : text) : only_calls cc (scan_loop cc t).
Proof.
  eapply only_calls_ext; [apply scan_loop_scan_chars|].
  apply only_calls_scan_chars.
Qed.

Lemma only_calls_final_flush (st : ScanState) :
  only_calls cc (final_flush cc st).
Proof.
  unfold final_flush. destruct (nonempty _).
  - apply only_calls_bind; [apply only_calls_cc_convert|].
    intro. apply only_calls_ret.
  - apply only_calls_ret.
Qed.

Lemma only_calls_scan (t : text) : only_calls cc (scan cc t).
Proof.
  apply only_calls_bind; [apply only_calls_scan_loop|].
  apply only_calls_final_flush.
Qed.

Lemma only_calls_convert (t : text) :
  only_calls cc (convert_chinese_in_text cc t).
Proof.
  apply only_calls_bind; [apply only_calls_scan|].
  intro. apply only_calls_ret.
Qed.

End Loop.

(** ** A transform that never raises *)

Lemma total_transform_ok {A} (f : text -> text) (m : M A) :
  only_calls (total_transform f) m ->
  exists a calls, forall w, m w = (Ok a, log_calls w calls).
Proof.
  intros (calls & [a|e|] & Hm & He).
  - exists a, calls. exact Hm.
  - destruct He as (before & s & _ & _ & Hs). discriminate Hs.
  - contradiction.
Qed.

Lemma backslash_not_quote (q : char) :
  is_quote q = true -> (q =? backslash) = false.
Proof.
  unfold is_quote. rewrite orb_true_iff, !N.eqb_eq.
  intros [->| ->]; reflexivity.
Qed.

(** ** Round trip *)

(** Under the identity transform a turn of the loop moves the character
    read into [result] or the buffer, as it is. *)
Lemma loop_body_identity (c : char) (st : ScanState) (w : World) :
  exists st' w',
    loop_body identity_transform c st w = (Ok st', w')
    /\ concat (result st') ++ current_segment st'
       = concat (result st) ++ current_segment st ++ [c].
Proof.
  destruct st as [res ins esc seg start].
  unfold loop_body. rewrite !str_of_chars_id.
  unfold bind, ret, cc_convert, identity_transform, total_transform; simpl.
  destruct esc; [eexists _, _; split; reflexivity|].
  destruct (c =? backslash); [eexists _, _; split; reflexivity|].
  destruct (is_quote c); [|eexists _, _; split; reflexivity].
  destruct ins; simpl;
    [destruct (is_start_char c start)|destruct seg as [|a seg]];
    simpl; (eexists _, _; split; [reflexivity|]); simpl;
    rewrite ?concat_app; simpl; rewrite ?app_nil_r, <- ?app_assoc;
    reflexivity.
Qed.

Lemma scan_chars_identity (chars : text) (st : ScanState) (w : World) :
  exists st' w',
    scan_chars identity_transform chars st w = (Ok st', w')
    /\ concat (result st') ++ current_segment st'
       = concat (result st) ++ current_segment st ++ chars.
Proof.
  revert st w. induction chars as [|c chars IH]; intros st w; simpl.
  - exists st, w. split; [reflexivity|now rewrite app_nil_r].
  - destruct (loop_body_identity c st w) as (st1 & w1 & H1 & E1).
    destruct (IH st1 w1) as (st' & w' & H' & E').
    exists st', w'. unfold bind. rewrite H1. split; [exact H'|].
    rewrite E', app_assoc, E1, <- !app_assoc. reflexivity.
Qed.

Lemma final_flush_identity (st : ScanState) (w : World) :
  exists r w',
    final_flush identity_transform st w = (Ok r, w')
    /\ concat r = concat (result st) ++ current_segment st.
Proof.
  unfold final_flush. rewrite str_of_chars_id.
  unfold bind, ret, cc_convert, identity_transform, total_transform.
  destruct (current_segment st) as [|a seg]; simpl.
  - eexists _, _; split; [reflexivity|now rewrite app_nil_r].
  - eexists _, _; split; [reflexivity|].
    rewrite concat_app. simpl. now rewrite app_nil_r.
Qed.

Lemma scan_identity (x : text) (w : World) :
  exists r w',
    scan identity_transform x w = (Ok r, w') /\ PyStr.join [] r = x.
Proof.
  destruct (scan_chars_identity x initial_state w) as (st & w1 & H1 & E1).
  destruct (final_flush_identity st w1) as (r & w' & H2 & E2).
  exists r, w'. unfold scan, bind.
  rewrite scan_loop_scan_chars, H1. split; [exact H2|].
  rewrite join_nil_concat, E2, E1. reflexivity.
Qed.

(** C1. Round trip: whatever the text -- unterminated strings and a trailing
    backslash included -- scanning it with the identity transform, joining
    [result] and applying an empty correction table gives the text back. *)
Theorem scan_reassemble_identity (x : text) (w : World) :
  exists r w',
    scan identity_transform x w = (Ok r, w')
    /\ PyStr.join [] r = x
    /\ apply_corrections [] (PyStr.join [] r) = x.
Proof.
  destruct (scan_identity x w) as (r & w' & H & E).
  exists r, w'. split; [exact H|]. split; [exact E|]. simpl. exact E.
Qed.

Lemma scan_reassemble_unterminated :
  exists w', scan identity_transform
               (lit "{" ++ [dquote] ++ lit "k: 'v" ++ [backslash])
               quiet_world
             = (Ok [lit "{"; [dquote]; lit "k: 'v" ++ [backslash]], w').
Proof. eexists. vm_compute. reflexivity. Qed.

(** ** Strings that are not closed *)

Section Unterminated.

Variable f : text -> text.

Lemma flush_at_open (q : char) (res : list text) (seg : text) (w : World) :
  is_quote q = true ->
  loop_body (total_transform f) q (mkScan res false false seg None) w
  = (Ok (mkScan (res ++ map f (flushed seg) ++ [[q]]) true false [] (Some q)),
     log_calls w (flushed seg)).
Proof.
  intros Hq. unfold loop_body. rewrite !str_of_chars_id.
  unfold bind, ret, cc_convert, total_transform.
  simpl. rewrite (backslash_not_quote q Hq), Hq. unfold flushed.
  destruct seg as [|a seg]; simpl.
  - now rewrite log_calls_nil.
  - now rewrite <- app_assoc.
Qed.

Lemma final_flush_total (st : ScanState) (w : World) :
  final_flush (total_transform f) st w
  = (Ok (result st ++ map f (flushed (current_segment st))),
     log_calls w (flushed (current_segment st))).
Proof.
  unfold final_flush. rewrite str_of_chars_id.
  unfold bind, ret, cc_convert, total_transform, flushed.
  destruct (current_segment st) as [|a seg]; simpl.
  - now rewrite app_nil_r, log_calls_nil.
  - reflexivity.
Qed.

(** The state in which the loop leaves [prefix ++ q :: rest] when [q] opens
    a string that [rest] does not close. *)
Lemma scan_loop_unterminated (prefix rest : text) (q : char) (w : World) :
  is_quote q = true ->
  no_boundary false None false prefix = true ->
  esc_after false prefix = false ->
  unclosed q rest = true ->
  scan_loop (total_transform f) (prefix ++ q :: rest) w
  = (Ok (mkScan (map f (flushed prefix) ++ [[q]]) true (esc_after false rest)
                rest (Some q)),
     log_calls w (flushed prefix)).
Proof.
  intros Hq Hp He Hr.
  rewrite scan_loop_scan_chars, scan_chars_app. unfold bind.
  rewrite scan_chars_no_boundary by exact Hp.
  cbn [result in_string escape_next current_segment string_start_char
       initial_state app scan_chars].
  rewrite He. unfold bind. rewrite flush_at_open by exact Hq.
  rewrite scan_chars_no_boundary by exact Hr. reflexivity.
Qed.

Lemma scan_unterminated (prefix rest : text) (q : char) (w : World) :
  is_quote q = true ->
  no_boundary false None false prefix = true ->
  esc_after false prefix = false ->
  unclosed q rest = true ->
  scan (total_transform f) (prefix ++ q :: rest) w
  = (Ok (map f (flushed prefix) ++ [[q]] ++ map f (flushed rest)),
     log_calls w (flushed prefix ++ flushed rest)).
Proof.
  intros Hq Hp He Hr. unfold scan, bind.
  rewrite (scan_loop_unterminated prefix rest q w Hq Hp He Hr).
  rewrite final_flush_total. simpl.
  now rewrite log_calls_app, <- app_assoc.
Qed.

(** A quote alone: the delimiter is emitted, no segment is. *)
Lemma lone_quote_scan (w : World) :
  scan (total_transform f) [dquote] w = (Ok [[dquote]], w).
Proof.
  change [dquote] with ([] ++ dquote :: @nil char) at 1.
  rewrite scan_unterminated by reflexivity.
  simpl. now rewrite log_calls_nil.
Qed.

End Unterminated.

(** C2, as the specification words it, fails: the quote that opens a string
    finds the buffer empty and flushes nothing, so a double quote followed
    by [abc] gives one segment, not an empty one followed by [abc]. *)
Lemma unterminated_one_segment :
  ~ unterminated_gives_two_segments identity_transform dquote (lit "abc").
Proof.
  intros (r & w' & H & Hcalls). vm_compute in H.
  inversion H; subst. discriminate Hcalls.
Qed.

(** C2, amended. A text made of a prefix without boundary, a quote and
    characters that do not close the string scans without error into: the
    transformed prefix when the prefix is not empty, the quote, and the
    transformed rest when the rest is not empty.  The transform is called on
    exactly these non-empty pieces; an empty buffer is not flushed when the
    quote is met, nor at the end of the text. *)
Theorem unterminated_string_scan (f : text -> text) (prefix rest : text)
  (q : char) (w : World) :
  is_quote q = true ->
  no_boundary false None false prefix = true ->
  esc_after false prefix = false ->
  unclosed q rest = true ->
  scan (total_transform f) (prefix ++ q :: rest) w
  = (Ok (map f (flushed prefix) ++ [[q]] ++ map f (flushed rest)),
     log_calls w (flushed prefix ++ flushed rest)).
Proof. apply scan_unterminated. Qed.

Lemma unterminated_string_scan_witness :
  is_quote dquote = true
  /\ no_boundary false None false (lit "{ ") = true
  /\ esc_after false (lit "{ ") = false
  /\ unclosed dquote (lit "it's") = true
  /\ scan (total_transform (fun s => s)) (lit "{ " ++ dquote :: lit "it's")
          quiet_world
     = (Ok [lit "{ "; [dquote]; lit "it's"],
        log_calls quiet_world [lit "{ "; lit "it's"]).
Proof.
  repeat (split; [reflexivity|]).
  exact (unterminated_string_scan (fun s => s) (lit "{ ") (lit "it's") dquote
           quiet_world eq_refl eq_refl eq_refl eq_refl).
Defined.

(** ** Escapes *)

Section Escapes.

Variable cc : text -> exn + text.

(** A backslash met with the escape flag clear, and the character after it,
    go to the buffer together. *)
Lemma scan_chars_escape_pair (c : char) (st : ScanState) (w : World) :
  escape_next st = false ->
  scan_chars cc [backslash; c] st w
  = (Ok (mkScan (result st) (in_string st) false
                (current_segment st ++ [backslash; c])
                (string_start_char st)), w).
Proof.
  intros Hesc. rewrite scan_chars_no_boundary.
  - simpl. now rewrite Hesc.
  - simpl. now rewrite Hesc.
Qed.

Lemma scan_loop_app (a b : text) (st : ScanState) (w w1 : World) :
  scan_loop cc a w = (Ok st, w1) ->
  scan_loop cc (a ++ b) w = scan_chars cc b st w1.
Proof.
  intros H. rewrite scan_loop_scan_chars in H.
  rewrite scan_loop_scan_chars, scan_chars_app. unfold bind. now rewrite H.
Qed.

Lemma scan_loop_escape_pair (pre : text) (c : char) (w : World)
  (st1 : ScanState) (w1 : World) :
  scan_loop cc pre w = (Ok st1, w1) ->
  escape_next st1 = false ->
  scan_loop cc (pre ++ [backslash; c]) w
  = (Ok (mkScan (result st1) (in_string st1) false
                (current_segment st1 ++ [backslash; c])
                (string_start_char st1)), w1).
Proof.
  intros H Hesc. rewrite (scan_loop_app _ _ _ _ _ H).
  now apply scan_chars_escape_pair.
Qed.

(** A backslash as the last character is in the buffer when the loop ends,
    whatever the escape flag was. *)
Lemma scan_chars_trailing_backslash (st : ScanState) (w : World) :
  scan_chars cc [backslash] st w
  = (Ok (mkScan (result st) (in_string st) (negb (escape_next st))
                (current_segment st ++ [backslash])
                (string_start_char st)), w).
Proof.
  simpl. unfold loop_body, bind, ret.
  destruct (escape_next st); reflexivity.
Qed.

End Escapes.

(** C3, as the specification words it, fails: in backslash, backslash,
    quote the second backslash is itself escaped, and the quote after it
    opens a string. *)
Lemma escaped_backslash_then_quote_opens :
  ~ pair_never_boundary identity_transform [backslash] dquote.
Proof.
  intros H.
  destruct (H (mkScan [] false true [backslash] None) quiet_world
              (mkScan [[backslash; backslash]; [dquote]] true false []
                      (Some dquote))
              (log_calls quiet_world [[backslash; backslash]])
              eq_refl eq_refl) as (Hres & _).
  discriminate Hres.
Qed.

(** C3, amended. A backslash that the scanner meets with the escape flag
    clear (it is not itself the character a backslash before it escapes)
    keeps the character after it -- a quote in particular -- from being a
    boundary: the pair goes to the buffer, [result], the string flag and the
    opening quote stay as they were and the transform is not called.  Under
    the identity transform the text, pair included, is reassembled as it
    was. *)
Theorem escaped_quote_is_content (cc : text -> exn + text)
  (pre post : text) (q : char) (w : World) (st1 : ScanState) (w1 : World) :
  scan_loop cc pre w = (Ok st1, w1) ->
  escape_next st1 = false ->
  scan_loop cc (pre ++ [backslash; q]) w
  = (Ok (mkScan (result st1) (in_string st1) false
                (current_segment st1 ++ [backslash; q])
                (string_start_char st1)), w1)
  /\ exists r w',
       scan identity_transform (pre ++ [backslash; q] ++ post) w = (Ok r, w')
       /\ PyStr.join [] r = pre ++ [backslash; q] ++ post.
Proof.
  intros H Hesc. split.
  - now apply scan_loop_escape_pair.
  - apply scan_identity.
Qed.

Lemma escaped_quote_is_content_witness :
  scan_loop identity_transform (lit "{" ++ [dquote] ++ lit "a") quiet_world
  = (Ok (mkScan [lit "{"; [dquote]] true false (lit "a") (Some dquote)),
     log_calls quiet_world [lit "{"])
  /\ escape_next (mkScan [lit "{"; [dquote]] true false (lit "a")
                         (Some dquote)) = false
  /\ scan_loop identity_transform
       ((lit "{" ++ [dquote] ++ lit "a") ++ [backslash; dquote]) quiet_world
     = (Ok (mkScan [lit "{"; [dquote]] true false
                   (lit "a" ++ [backslash; dquote]) (Some dquote)),
        log_calls quiet_world [lit "{"]).
Proof.
  split; [reflexivity|]. split; [reflexivity|].
  exact (proj1 (escaped_quote_is_content identity_transform
                  (lit "{" ++ [dquote] ++ lit "a") (lit "b") dquote
                  quiet_world _ _ eq_refl eq_refl)).
Defined.

(** ** Totality *)

Section Totality.

Variable f : text -> text.

Lemma scan_chars_total (chars : text) (st : ScanState) :
  exists st' calls,
    forall w, scan_chars (total_transform f) chars st w
              = (Ok st', log_calls w calls).
Proof. apply (total_transform_ok f), only_calls_scan_chars. Qed.

Lemma convert_total (t : text) :
  exists r calls,
    forall w, convert_chinese_in_text (total_transform f) t w
              = (Ok r, log_calls w calls).
Proof. apply (total_transform_ok f), only_calls_convert. Qed.

Lemma scan_trailing_backslash (t : text) :
  exists res seg calls,
    forall w, scan (total_transform f) (t ++ [backslash]) w
              = (Ok (res ++ [f (seg ++ [backslash])]),
                 log_calls w (calls ++ [seg ++ [backslash]])).
Proof.
  destruct (scan_chars_total t initial_state) as (st & calls & H).
  exists (result st), (current_segment st), calls. intros w.
  unfold scan, bind.
  rewrite scan_loop_scan_chars, scan_chars_app. unfold bind.
  rewrite H, scan_chars_trailing_backslash, (final_flush_total f).
  cbn [result current_segment]. unfold flushed.
  destruct (current_segment st); simpl; now rewrite log_calls_app.
Qed.

End Totality.

(** C4. The core never fails on its own.  With a transform that returns on
    every call, the pipeline -- scanner, then the correction pass
    and the line normalisation, which are functions of the text -- returns
    a text for every input: the loop stops within
    the length of the text and never indexes outside it.  The empty text
    gives the empty text, and a backslash as the last character is part of
    the segment the final flush hands to the transform. *)
Theorem core_total (f : text -> text) (t : text) (w : World) :
  (exists r calls,
      convert_chinese_in_text (total_transform f) t w
      = (Ok r, log_calls w calls))
  /\ (exists st calls,
         while_loop (total_transform f) (length t) t 0 initial_state w
         = (Ok st, log_calls w calls))
  /\ convert_chinese_in_text (total_transform f) [] w = (Ok [], w)
  /\ (exists res seg calls,
         scan (total_transform f) (t ++ [backslash]) w
         = (Ok (res ++ [f (seg ++ [backslash])]),
            log_calls w (calls ++ [seg ++ [backslash]]))).
Proof.
  split.
  { destruct (convert_total f t) as (r & calls & H). exists r, calls.
    apply H. }
  split.
  { destruct (scan_chars_total f t initial_state) as (st & calls & H).
    exists st, calls. rewrite <- H. apply scan_loop_scan_chars. }
  split; [reflexivity|].
  destruct (scan_trailing_backslash f t) as (res & seg & calls & H).
  exists res, seg, calls. apply H.
Qed.

(** ** The other quote inside a string *)

Lemma esc_after_app (esc : bool) (a b : text) :
  esc_after esc (a ++ b) = esc_after (esc_after esc a) b.
Proof.
  revert esc. induction a as [|c a IH]; intros esc; simpl; [reflexivity|].
  destruct esc; [apply IH|]. destruct (c =? backslash); apply IH.
Qed.

Lemma no_boundary_app (ins : bool) (start : option char) (esc : bool)
  (a b : text) :
  no_boundary ins start esc (a ++ b)
  = no_boundary ins start esc a
    && no_boundary ins start (esc_after esc a) b.
Proof.
  revert esc. induction a as [|c a IH]; intros esc; simpl; [reflexivity|].
  destruct esc; [apply IH|]. destruct (c =? backslash); [apply IH|].
  destruct (is_quote c); [|apply IH].
  rewrite IH. now rewrite andb_assoc.
Qed.

(** Inside a string, a quote that is not the opening one is a character
    like any other. *)
Lemma loop_body_other_quote (cc : text -> exn + text) (c q : char)
  (st : ScanState) (w : World) :
  escape_next st = false -> in_string st = true ->
  string_start_char st = Some q ->
  is_quote c = true -> c <> q ->
  loop_body cc c st w
  = (Ok (mkScan (result st) true false (current_segment st ++ [c]) (Some q)),
     w).
Proof.
  intros Hesc Hin Hstart Hc Hne. unfold loop_body, ret.
  rewrite Hesc, (backslash_not_quote c Hc), Hc, Hin, Hstart. simpl.
  apply N.eqb_neq in Hne. now rewrite Hne.
Qed.

Section ClosedString.

Variable f : text -> text.

Lemma flush_at_close (q : char) (res : list text) (seg : text) (w : World) :
  is_quote q = true ->
  loop_body (total_transform f) q (mkScan res true false seg (Some q)) w
  = (Ok (mkScan (res ++ [f seg] ++ [[q]]) false false [] None),
     log_calls w [seg]).
Proof.
  intros Hq. unfold loop_body. rewrite !str_of_chars_id.
  unfold bind, ret, cc_convert, total_transform.
  simpl. now rewrite (backslash_not_quote q Hq), Hq, N.eqb_refl.
Qed.

(** A string with no boundary between its quotes is one segment. *)
Lemma scan_closed_string (q : char) (body : text) (w : World) :
  is_quote q = true ->
  unclosed q body = true ->
  esc_after false body = false ->
  scan (total_transform f) (q :: body ++ [q]) w
  = (Ok [[q]; f body; [q]], log_calls w [body]).
Proof.
  intros Hq Hbody Hesc. unfold scan, bind.
  rewrite scan_loop_scan_chars. simpl scan_chars. unfold bind.
  unfold initial_state. rewrite (flush_at_open f) by exact Hq.
  rewrite scan_chars_app. unfold bind.
  rewrite scan_chars_no_boundary by exact Hbody.
  cbn [result in_string escape_next current_segment string_start_char
       app map flushed nonempty scan_chars].
  rewrite Hesc. unfold bind. rewrite flush_at_close by exact Hq.
  unfold ret. rewrite (final_flush_total f). simpl.
  now rewrite !log_calls_app.
Qed.

Lemma unclosed_other_quote (q c : char) (body1 body2 : text) :
  is_quote c = true -> c <> q ->
  unclosed q body1 = true -> esc_after false body1 = false ->
  unclosed q body2 = true -> esc_after false body2 = false ->
  unclosed q (body1 ++ c :: body2) = true
  /\ esc_after false (body1 ++ c :: body2) = false.
Proof.
  intros Hc Hne H1 E1 H2 E2. unfold unclosed in *. split.
  - rewrite no_boundary_app, H1, E1. simpl.
    rewrite (backslash_not_quote c Hc), Hc.
    apply N.eqb_neq in Hne. now rewrite Hne, H2.
  - rewrite esc_after_app, E1. simpl.
    now rewrite (backslash_not_quote c Hc).
Qed.

End ClosedString.

(** C5. Inside a string opened by one quote, the other quote is content: a
    string whose body holds the other quote -- between parts that hold no
    boundary -- scans as the delimiter, one segment made of the whole body,
    quote included, and the delimiter; the transform is called once, on that
    body.  For a double-quoted string holding A, a single quote and B the
    one segment is A, the single quote, B. *)
Theorem other_quote_is_literal (f : text -> text) (q c : char)
  (body1 body2 : text) (w : World) :
  is_quote q = true -> is_quote c = true -> c <> q ->
  unclosed q body1 = true -> esc_after false body1 = false ->
  unclosed q body2 = true -> esc_after false body2 = false ->
  scan (total_transform f) (q :: (body1 ++ c :: body2) ++ [q]) w
  = (Ok [[q]; f (body1 ++ c :: body2); [q]],
     log_calls w [body1 ++ c :: body2]).
Proof.
  intros Hq Hc Hne H1 E1 H2 E2.
  destruct (unclosed_other_quote q c body1 body2 Hc Hne H1 E1 H2 E2)
    as [Hb Eb].
  now apply scan_closed_string.
Qed.

Lemma other_quote_is_literal_witness :
  is_quote dquote = true /\ is_quote squote = true /\ squote <> dquote
  /\ unclosed dquote (lit "A") = true /\ esc_after false (lit "A") = false
  /\ unclosed dquote (lit "B") = true /\ esc_after false (lit "B") = false
  /\ scan identity_transform (dquote :: lit "A'B" ++ [dquote]) quiet_world
     = (Ok [[dquote]; lit "A'B"; [dquote]],
        log_calls quiet_world [lit "A'B"]).
Proof.
  split; [reflexivity|]. split; [reflexivity|]. split; [discriminate|].
  repeat (split; [reflexivity|]).
  apply (other_quote_is_literal (fun s => s) dquote squote (lit "A") (lit "B")
           quiet_world); try reflexivity.
  discriminate.
Defined.

(** ** What the transform is called on *)

Section Flushes.

Variable cc : text -> exn + text.

Lemma snd_cc_convert (s : text) (w : World) :
  snd (cc_convert cc s w) = log_calls w [s].
Proof. unfold cc_convert. destruct (cc s); reflexivity. Qed.

(** The flush at a quote that opens a string is guarded: the transform gets
    the buffer when it is not empty, and is not called otherwise. *)
Lemma calls_at_open (c : char) (st : ScanState) (w : World) :
  escape_next st = false -> is_quote c = true -> in_string st = false ->
  snd (loop_body cc c st w) = log_calls w (flushed (current_segment st)).
Proof.
  intros Hesc Hc Hin. unfold loop_body.
  rewrite !str_of_chars_id, Hesc, (backslash_not_quote c Hc), Hc, Hin. simpl.
  unfold flushed, bind, ret.
  destruct (current_segment st) as [|a seg] eqn:E; simpl.
  - now rewrite log_calls_nil.
  - unfold cc_convert. destruct (cc (a :: seg)); reflexivity.
Qed.

(** The flush at the quote that closes a string is not: the transform gets
    the content of the string, empty or not. *)
Lemma calls_at_close (c : char) (st : ScanState) (w : World) :
  escape_next st = false -> is_quote c = true -> in_string st = true ->
  is_start_char c (string_start_char st) = true ->
  snd (loop_body cc c st w) = log_calls w [current_segment st].
Proof.
  intros Hesc Hc Hin Hstart. unfold loop_body.
  rewrite !str_of_chars_id, Hesc, (backslash_not_quote c Hc), Hc, Hin, Hstart.
  simpl.
  unfold bind, ret, cc_convert.
  destruct (cc (current_segment st)); reflexivity.
Qed.

Lemma calls_at_end (st : ScanState) (w : World) :
  snd (final_flush cc st w) = log_calls w (flushed (current_segment st)).
Proof.
  unfold final_flush, flushed, bind, ret. rewrite str_of_chars_id.
  destruct (current_segment st) as [|a seg]; simpl.
  - now rewrite log_calls_nil.
  - unfold cc_convert. destruct (cc (a :: seg)); reflexivity.
Qed.

Lemma flushed_nonempty (s : text) : Forall (fun p => p <> []) (flushed s).
Proof.
  unfold flushed. destruct s; simpl; constructor; [discriminate|constructor].
Qed.

Lemma convert_empty (w : World) :
  convert_chinese_in_text cc [] w = (Ok [], w).
Proof. reflexivity. Qed.

End Flushes.

(** C10, as stated, fails: closing an empty string literal hands the empty
    string to the transform. *)
Lemma empty_literal_calls_transform_on_empty :
  ~ never_called_on_empty identity_transform [dquote; dquote].
Proof.
  intros H.
  specialize (H (Ok [[dquote]; []; [dquote]]) (log_calls quiet_world [[]])
                eq_refl).
  inversion H as [|? ? Hne _]. now apply Hne.
Qed.

(** C10, amended. The transform is called in three places.  At a quote that
    opens a string and at the end of the text the flush is guarded: the
    transform gets the buffer when it is not empty and is not called when it
    is.  At the quote that closes a string it gets the content of the
    string, whatever it is -- the empty string for an empty literal.  For
    the empty text the pipeline returns the empty text and the transform is
    not called, whatever the transform. *)
Theorem transform_call_arguments (cc : text -> exn + text) (c : char)
  (st : ScanState) (w : World) :
  escape_next st = false ->
  is_quote c = true ->
  (in_string st = false ->
   snd (loop_body cc c st w) = log_calls w (flushed (current_segment st)))
  /\ (in_string st = true ->
      is_start_char c (string_start_char st) = true ->
      snd (loop_body cc c st w) = log_calls w [current_segment st])
  /\ snd (final_flush cc st w) = log_calls w (flushed (current_segment st))
  /\ Forall (fun s => s <> []) (flushed (current_segment st))
  /\ convert_chinese_in_text cc [] w = (Ok [], w).
Proof.
  intros Hesc Hc. split; [now apply calls_at_open|].
  split; [now apply calls_at_close|].
  split; [apply calls_at_end|].
  split; [apply flushed_nonempty|apply convert_empty].
Qed.

Lemma transform_call_arguments_witness :
  escape_next (mkScan [[dquote]] true false [] (Some dquote)) = false
  /\ is_quote dquote = true
  /\ snd (loop_body identity_transform dquote
            (mkScan [[dquote]] true false [] (Some dquote)) quiet_world)
     = log_calls quiet_world [[]].
Proof.
  split; [reflexivity|]. split; [reflexivity|].
  exact (proj1 (proj2 (transform_call_arguments identity_transform dquote
                         (mkScan [[dquote]] true false [] (Some dquote))
                         quiet_world eq_refl eq_refl))
           eq_refl eq_refl).
Defined.

(** ** The per-file driver *)

Section Driver.

Variable cc : text -> exn + text.

(** The outcome of the conversion does not depend on the world. *)
Lemma convert_outcome (content : text) :
  exists calls o,
    (forall w, convert_chinese_in_text cc content w = (o, log_calls w calls))
    /\ explains cc calls o.
Proof. apply only_calls_convert. Qed.

Lemma convert_json_file_raise (file_path : path) (w : World)
  (content : text) (e : exn) :
  files w file_path = Some content ->
  fst (convert_chinese_in_text cc content w) = Raise e ->
  exists before s,
    convert_json_file cc file_path w
    = (Ok false,
       mkWorld (cc_calls w ++ before ++ [s]) (files w) (writable w)
               (io_error w)
               (stdout w
                ++ [lit "Converting: " ++ file_path;
                    lit "Error converting " ++ file_path ++ lit ": "
                    ++ firstn 100 (str_exn e)]))
    /\ Forall (returns cc) before
    /\ cc s = inl e.
Proof.
  intros Hfile Hraise.
  destruct (convert_outcome content) as (calls & o & Hrun & Hex).
  rewrite Hrun in Hraise. simpl in Hraise. subst o.
  destruct Hex as (before & s & -> & Hbefore & Hs).
  exists before, s. split; [|auto].
  unfold convert_json_file, try_except, bind, print, read_file. simpl.
  rewrite Hfile, Hrun. unfold log_calls, ret. simpl.
  now rewrite <- app_assoc.
Qed.

(** When nothing raises, the converted text replaces the content of the
    file. *)
Lemma convert_json_file_ok (file_path : path) (w : World)
  (content converted : text) :
  files w file_path = Some content ->
  writable w file_path = true ->
  fst (convert_chinese_in_text cc content w) = Ok converted ->
  exists w',
    convert_json_file cc file_path w = (Ok true, w')
    /\ files w' file_path = Some converted
    /\ stdout w' = stdout w ++ [lit "Converting: " ++ file_path].
Proof.
  intros Hfile Hw Hok.
  destruct (convert_outcome content) as (calls & o & Hrun & Hex).
  rewrite Hrun in Hok. simpl in Hok. subst o.
  unfold convert_json_file, try_except, bind, print, read_file, write_file.
  simpl. rewrite Hfile, Hrun. simpl. rewrite Hw.
  eexists. split; [reflexivity|]. simpl. split; [|reflexivity].
  unfold path_eqb. destruct (list_eq_dec N.eq_dec file_path file_path);
    [reflexivity|congruence].
Qed.

End Driver.

(** C7. When the transform raises on a segment of a document, the driver
    gives the document up: nothing is written (the files are as they were),
    the exception does not escape (the driver returns [False]) and what is
    printed is the line announcing the file and one error line whose
    diagnostic is the message cut to 100 characters.  The call that raised
    is the last one made: every call before it returned, so the failed call
    is not made again and no later segment is tried. *)
Theorem transform_error_discards_output (cc : text -> exn + text)
  (file_path : path) (w : World) (content : text) (e : exn) :
  files w file_path = Some content ->
  fst (convert_chinese_in_text cc content w) = Raise e ->
  exists before s,
    convert_json_file cc file_path w
    = (Ok false,
       mkWorld (cc_calls w ++ before ++ [s]) (files w) (writable w)
               (io_error w)
               (stdout w
                ++ [lit "Converting: " ++ file_path;
                    lit "Error converting " ++ file_path ++ lit ": "
                    ++ firstn 100 (str_exn e)]))
    /\ Forall (returns cc) before
    /\ cc s = inl e
    /\ (length (firstn 100 (str_exn e)) <= 100)%nat.
Proof.
  intros Hfile Hraise.
  destruct (convert_json_file_raise cc file_path w content e Hfile Hraise)
    as (before & s & Hrun & Hbefore & Hs).
  exists before, s. repeat split; auto. apply firstn_le_length.
Qed.

Lemma transform_error_discards_output_witness :
  files sample_world (lit "a.json") = Some sample_doc
  /\ fst (convert_chinese_in_text sample_cc sample_doc sample_world)
     = Raise sample_error
  /\ exists before s,
       convert_json_file sample_cc (lit "a.json") sample_world
       = (Ok false,
          mkWorld (cc_calls sample_world ++ before ++ [s])
                  (files sample_world) (writable sample_world)
                  (io_error sample_world)
                  (stdout sample_world
                   ++ [lit "Converting: " ++ lit "a.json";
                       lit "Error converting " ++ lit "a.json" ++ lit ": "
                       ++ firstn 100 (str_exn sample_error)]))
       /\ Forall (returns sample_cc) before
       /\ sample_cc s = inl sample_error
       /\ (length (firstn 100 (str_exn sample_error)) <= 100)%nat.
Proof.
  split; [reflexivity|]. split; [reflexivity|].
  apply (transform_error_discards_output sample_cc (lit "a.json")
           sample_world sample_doc sample_error); reflexivity.
Defined.

(** On the sample document the calls before the failing one are the three
    segments that precede the string the transform refuses. *)
Lemma sample_run :
  convert_json_file sample_cc (lit "a.json") sample_world
  = (Ok false,
     mkWorld [lit "{"; lit "k"; lit ": "; lit "v"]
             (files sample_world) (writable sample_world)
             (io_error sample_world)
             [lit "Converting: a.json";
              lit "Error converting a.json: no conversion"]).
Proof. reflexivity. Qed.

(** * Further properties *)

(** ** The correction table acts character by character *)

Lemma replace_single (k v : char) (s : text) :
  PyStr.replace s [k] [v] = map (fun c => if c =? k then v else c) s.
Proof.
  unfold PyStr.replace. induction s as [|c r IH]; [reflexivity|].
  cbn [PyStr.replace_from PyStr.startswith length map].
  rewrite IH, andb_true_r, (N.eqb_sym k c).
  destruct (c =? k); reflexivity.
Qed.

Lemma manual_correction_steps (c : char) :
  (fun c => if c =? 40692 then 38665 else c)
    ((fun c => if c =? 30637 then 20102 else c)
    ((fun c => if c =? 21931 then 21507 else c)
    ((fun c => if c =? 34886 then 30526 else c)
    ((fun c => if c =? 32675 then 32676 else c)
    ((fun c => if c =? 29234 then 28858 else c)
    ((fun c => if c =? 32404 then 25165 else c)
    ((fun c => if c =? 29248 then 24202 else c)
    ((fun c => if c =? 35023 then 35041 else c) c))))))))
  = manual_correction c.
Proof.
  unfold manual_correction. cbv beta.
  repeat match goal with
         | |- context [c =? ?k] =>
             destruct (N.eqb_spec c k) as [->|?]; [reflexivity|]
         end.
  reflexivity.
Qed.

Lemma apply_manual_corrections_map (t : text) :
  apply_manual_corrections t = map manual_correction t.
Proof.
  unfold apply_manual_corrections, MANUAL_CORRECTIONS, apply_corrections.
  rewrite !replace_single, !map_map.
  apply map_ext. intros c. apply manual_correction_steps.
Qed.

Lemma manual_correction_not_wrong (c : char) :
  ~ In (manual_correction c) wrong_chars.
Proof.
  unfold manual_correction.
  repeat match goal with
         | |- context [c =? ?k] =>
             destruct (N.eqb_spec c k) as [->|?];
             [unfold wrong_chars; cbn [In]; unfold char in *; lia|]
         end.
  unfold wrong_chars; cbn [In]; unfold char in *; lia.
Qed.

Lemma manual_correction_fixes (c : char) :
  ~ In c wrong_chars -> manual_correction c = c.
Proof.
  unfold wrong_chars, manual_correction. cbn [In]. intros H.
  repeat match goal with
         | |- context [c =? ?k] =>
             destruct (N.eqb_spec c k) as [->|?]; [exfalso; tauto|]
         end.
  reflexivity.
Qed.

Lemma manual_correction_idempotent (c : char) :
  manual_correction (manual_correction c) = manual_correction c.
Proof. apply manual_correction_fixes, manual_correction_not_wrong. Qed.

(** X1. The correction pass works character by character: each of the nine
    characters of the table becomes its replacement and every other
    character stays.  So the pass keeps the length of the text and goes
    through concatenation. *)
Theorem manual_corrections_charwise (a b : text) :
  apply_manual_corrections a = map manual_correction a
  /\ length (apply_manual_corrections a) = length a
  /\ apply_manual_corrections (a ++ b)
     = apply_manual_corrections a ++ apply_manual_corrections b
  /\ (forall c, In c wrong_chars <-> In [c] (map fst MANUAL_CORRECTIONS))
  /\ (forall c, ~ In c wrong_chars -> manual_correction c = c).
Proof.
  split; [apply apply_manual_corrections_map|].
  split; [rewrite apply_manual_corrections_map; apply length_map|].
  split; [rewrite !apply_manual_corrections_map; apply map_app|].
  split; [|apply manual_correction_fixes].
  intros c. unfold wrong_chars, MANUAL_CORRECTIONS. cbn [In map fst].
  split; intros H;
    repeat (destruct H as [H|H]; [inversion H; subst; tauto|]);
    contradiction.
Qed.

Lemma corrections_twice (t : text) :
  Forall (fun c => ~ In c wrong_chars) (apply_manual_corrections t)
  /\ apply_manual_corrections (apply_manual_corrections t)
     = apply_manual_corrections t.
Proof.
  rewrite !apply_manual_corrections_map. split.
  - apply Forall_map, Forall_forall. intros c _.
    apply manual_correction_not_wrong.
  - rewrite map_map. apply map_ext, manual_correction_idempotent.
Qed.

(** X2. After the correction pass none of the nine replaced characters is
    left in the text, and correcting a corrected text changes nothing. *)
Theorem manual_corrections_idempotent (t : text) :
  Forall (fun c => ~ In c wrong_chars) (apply_manual_corrections t)
  /\ apply_manual_corrections (apply_manual_corrections t)
     = apply_manual_corrections t.
Proof. apply corrections_twice. Qed.

(** ** The order of the table does not matter *)

Lemma lookup_char_not_key (pairs : list (char * char)) (c : char) :
  ~ In c (map fst pairs) -> lookup_char pairs c = c.
Proof.
  induction pairs as [|[k v] rest IH]; simpl; intros H; [reflexivity|].
  destruct (N.eqb_spec c k) as [->|Hne]; [exfalso; auto|].
  apply IH. auto.
Qed.

(** Where no replacement is itself replaced, a table of characters sends
    each character to its first replacement. *)
Lemma apply_char_table (pairs : list (char * char)) (t : text) :
  (forall v, In v (map snd pairs) -> ~ In v (map fst pairs)) ->
  apply_corrections (char_table pairs) t = map (lookup_char pairs) t.
Proof.
  revert t. induction pairs as [|[k v] rest IH]; intros t H; simpl.
  - now rewrite map_id.
  - rewrite replace_single, IH, map_map.
    + apply map_ext. intros c. destruct (N.eqb_spec c k) as [->|Hne];
        [|reflexivity].
      apply lookup_char_not_key. intros Hin.
      apply (H v); simpl; auto.
    + intros v' Hv' Hk'. apply (H v'); simpl; auto.
Qed.

Lemma lookup_char_permutation (l l' : list (char * char)) (c : char) :
  Permutation l l' -> NoDup (map fst l) ->
  lookup_char l c = lookup_char l' c.
Proof.
  induction 1 as [|[k v] l l' Hp IH|[k1 v1] [k2 v2] l|l l' l'' H1 IH1 H2 IH2];
    intros Hnd; simpl.
  - reflexivity.
  - inversion Hnd; subst. now rewrite IH.
  - simpl in Hnd. inversion Hnd as [|? ? Hnot _]; subst.
    destruct (N.eqb_spec c k1) as [E1|?]; destruct (N.eqb_spec c k2) as [E2|?];
      try reflexivity.
    exfalso. apply Hnot. left. congruence.
  - rewrite IH1 by exact Hnd. apply IH2.
    eapply Permutation_NoDup; [|exact Hnd]. now apply Permutation_map.
Qed.

Lemma manual_pairs_facts :
  MANUAL_CORRECTIONS = char_table manual_pairs
  /\ NoDup (map fst manual_pairs)
  /\ (forall v, In v (map snd manual_pairs) ->
                ~ In v (map fst manual_pairs)).
Proof.
  split; [reflexivity|]. split.
  - unfold manual_pairs. cbn [map fst].
    repeat (constructor; [cbn [In]; unfold char; lia|]). constructor.
  - unfold manual_pairs. cbn [map fst snd In]. unfold char. lia.
Qed.

Lemma apply_corrections_permutation (table : list (text * text)) (t : text) :
  Permutation MANUAL_CORRECTIONS table ->
  apply_corrections table t = apply_corrections MANUAL_CORRECTIONS t.
Proof.
  destruct manual_pairs_facts as (-> & Hnd & Hval). intros Hp.
  apply Permutation_sym, Permutation_map_inv in Hp
    as (pairs & -> & Hpairs).
  fold (char_table pairs).
  rewrite (apply_char_table manual_pairs) by exact Hval.
  rewrite apply_char_table.
  - apply map_ext. intros c. symmetry.
    apply lookup_char_permutation; [exact Hpairs|exact Hnd].
  - intros v Hv Hk. apply (Hval v).
    + eapply Permutation_in; [|exact Hv].
      apply Permutation_sym, Permutation_map, Hpairs.
    + eapply Permutation_in; [|exact Hk].
      apply Permutation_sym, Permutation_map, Hpairs.
Qed.

(** X3. For the table the program carries, the order of the pairs does not
    matter: the pairs taken in any other order correct every text the same
    way (no replacement of the table is itself a character the table
    replaces). *)
Theorem manual_corrections_any_order (table : list (text * text))
  (t : text) :
  Permutation MANUAL_CORRECTIONS table ->
  apply_corrections table t = apply_manual_corrections t.
Proof. apply apply_corrections_permutation. Qed.

Lemma manual_corrections_any_order_witness :
  Permutation MANUAL_CORRECTIONS (rev MANUAL_CORRECTIONS)
  /\ apply_corrections (rev MANUAL_CORRECTIONS) [35023; 97; 40692]
     = apply_manual_corrections [35023; 97; 40692].
Proof.
  split; [apply Permutation_rev|].
  apply (manual_corrections_any_order (rev MANUAL_CORRECTIONS)
           [35023; 97; 40692]).
  apply Permutation_rev.
Defined.

(** ** The scanner partitions the text *)

Lemma piece_calls_app (a b : list piece) :
  piece_calls (a ++ b) = piece_calls a ++ piece_calls b.
Proof. apply flat_map_app. Qed.

(** One turn of the loop emits pieces that depend on the text and the flags
    only, not on the transform or on what was emitted before. *)
Lemma loop_body_pieces (c : char) (ins esc : bool) (seg : text)
  (start : option char) :
  exists pieces ins' esc' seg' start',
    (forall f res w,
        loop_body (total_transform f) c (mkScan res ins esc seg start) w
        = (Ok (mkScan (res ++ map (piece_output f) pieces) ins' esc' seg'
                      start'),
           log_calls w (piece_calls pieces)))
    /\ concat (map piece_source pieces) ++ seg' = seg ++ [c]
    /\ forallb delimiter_is_quote pieces = true.
Proof.
  unfold loop_body, total_transform.
  cbn [result in_string escape_next current_segment string_start_char].
  destruct esc.
  { exists [], ins, false, (seg ++ [c]), start. repeat split.
    intros. unfold ret. simpl. now rewrite app_nil_r, log_calls_nil. }
  destruct (c =? backslash).
  { exists [], ins, true, (seg ++ [c]), start. repeat split.
    intros. unfold ret. simpl. now rewrite app_nil_r, log_calls_nil. }
  destruct (is_quote c) eqn:Hq.
  2:{ exists [], ins, false, (seg ++ [c]), start. repeat split.
      intros. unfold ret. simpl. now rewrite app_nil_r, log_calls_nil. }
  destruct ins; cbn [negb].
  - destruct (is_start_char c start).
    + exists [Segment seg; Delimiter c], false, false, [], None.
      split; [|split].
      * intros. rewrite str_of_chars_id. reflexivity.
      * simpl. now rewrite !app_nil_r.
      * simpl. now rewrite Hq.
    + exists [], true, false, (seg ++ [c]), start. repeat split.
      intros. unfold ret. simpl. now rewrite app_nil_r, log_calls_nil.
  - destruct seg as [|a seg].
    + exists [Delimiter c], true, false, [], (Some c). split; [|split].
      * intros. unfold bind, ret. simpl. now rewrite log_calls_nil.
      * reflexivity.
      * simpl. now rewrite Hq.
    + exists [Segment (a :: seg); Delimiter c], true, false, [], (Some c).
      split; [|split].
      * intros. rewrite str_of_chars_id. unfold bind, ret, cc_convert.
        simpl. now rewrite <- app_assoc.
      * simpl. now rewrite !app_nil_r.
      * simpl. now rewrite Hq.
Qed.

Lemma scan_chars_pieces (chars : text) (ins esc : bool) (seg : text)
  (start : option char) :
  exists pieces ins' esc' seg' start',
    (forall f res w,
        scan_chars (total_transform f) chars (mkScan res ins esc seg start) w
        = (Ok (mkScan (res ++ map (piece_output f) pieces) ins' esc' seg'
                      start'),
           log_calls w (piece_calls pieces)))
    /\ concat (map piece_source pieces) ++ seg' = seg ++ chars
    /\ forallb delimiter_is_quote pieces = true.
Proof.
  revert ins esc seg start.
  induction chars as [|c chars IH]; intros ins esc seg start.
  - exists [], ins, esc, seg, start. repeat split.
    + intros. simpl. unfold ret. now rewrite app_nil_r, log_calls_nil.
    + simpl. now rewrite app_nil_r.
  - destruct (loop_body_pieces c ins esc seg start)
      as (p1 & ins1 & esc1 & seg1 & start1 & H1 & E1 & Q1).
    destruct (IH ins1 esc1 seg1 start1)
      as (p2 & ins2 & esc2 & seg2 & start2 & H2 & E2 & Q2).
    exists (p1 ++ p2), ins2, esc2, seg2, start2. split; [|split].
    + intros f res w. simpl. unfold bind. rewrite H1, H2.
      now rewrite log_calls_app, piece_calls_app, map_app, app_assoc.
    + rewrite map_app, concat_app, <- app_assoc, E2, app_assoc, E1.
      now rewrite <- app_assoc.
    + rewrite forallb_app, Q1, Q2. reflexivity.
Qed.

Lemma scan_pieces (x : text) :
  exists pieces,
    concat (map piece_source pieces) = x
    /\ forallb delimiter_is_quote pieces = true
    /\ forall f w,
         scan (total_transform f) x w
         = (Ok (map (piece_output f) pieces),
            log_calls w (piece_calls pieces)).
Proof.
  destruct (scan_chars_pieces x false false [] None)
    as (ps & ins & esc & seg & start & H & E & Q).
  destruct seg as [|a seg].
  - exists ps. split; [now rewrite app_nil_r in E|]. split; [exact Q|].
    intros f w. unfold scan, bind. rewrite scan_loop_scan_chars.
    unfold initial_state. rewrite H, (final_flush_total f).
    unfold flushed. simpl. now rewrite log_calls_app, !app_nil_r.
  - exists (ps ++ [Segment (a :: seg)]). split; [|split].
    + rewrite map_app, concat_app. simpl. now rewrite app_nil_r.
    + rewrite forallb_app, Q. reflexivity.
    + intros f w. unfold scan, bind. rewrite scan_loop_scan_chars.
      unfold initial_state. rewrite H, (final_flush_total f).
      unfold flushed. cbn [current_segment nonempty result].
      now rewrite log_calls_app, piece_calls_app, map_app.
Qed.

(** X4. The scanner partitions the text, and the partition depends on the
    text alone: there is a sequence of pieces -- segments and delimiters,
    the delimiters being quotes -- whose concatenation is the text, such
    that for every transform that returns, [result] is these pieces with
    each segment transformed and each delimiter kept, and the transform is
    called on the segments, once each and in order.  No character is lost
    or read twice, and no delimiter reaches the transform. *)
Theorem scan_partitions_text (x : text) :
  exists pieces,
    concat (map piece_source pieces) = x
    /\ forallb delimiter_is_quote pieces = true
    /\ forall f w,
         scan (total_transform f) x w
         = (Ok (map (piece_output f) pieces),
            log_calls w (piece_calls pieces)).
Proof. apply scan_pieces. Qed.

(** ** The pipeline as a whole *)

Lemma convert_identity (x : text) (w : World) :
  exists calls,
    convert_chinese_in_text identity_transform x w
    = (Ok (normalize_lines (apply_manual_corrections x)), log_calls w calls).
Proof.
  destruct (scan_pieces x) as (ps & E & _ & H).
  exists (piece_calls ps). unfold convert_chinese_in_text, bind, ret.
  unfold identity_transform. rewrite H, join_nil_concat.
  replace (map (piece_output (fun s => s)) ps) with (map piece_source ps).
  - now rewrite E.
  - apply map_ext. now intros [s|q].
Qed.

(** X5. With a transform that returns its argument, the pipeline is the
    correction pass followed by the line normalisation: the scan itself
    changes nothing. *)
Theorem convert_identity_is_correct_then_normalize (x : text) (w : World) :
  exists calls,
    convert_chinese_in_text identity_transform x w
    = (Ok (normalize_lines (apply_manual_corrections x)), log_calls w calls).
Proof. apply convert_identity. Qed.

Section CharMaps.

Variable g : char -> char.

Lemma split_map (sep : char) (s : text) :
  (forall c, (g c =? sep) = (c =? sep)) ->
  PyStr.split sep (map g s) = map (map g) (PyStr.split sep s).
Proof.
  intros Hg. induction s as [|c r IH]; [reflexivity|].
  simpl. rewrite Hg, IH. destruct (c =? sep); [reflexivity|].
  destruct (PyStr.split sep r); reflexivity.
Qed.

Lemma rstrip_map (s : text) :
  (forall c, PyStr.isspace (g c) = PyStr.isspace c) ->
  PyStr.rstrip (map g s) = map g (PyStr.rstrip s).
Proof.
  intros Hg. induction s as [|c r IH]; [reflexivity|].
  simpl. rewrite IH, Hg. destruct (PyStr.rstrip r); simpl; [|reflexivity].
  destruct (PyStr.isspace c); reflexivity.
Qed.

Lemma join_map (sep : text) (parts : list text) :
  PyStr.join (map g sep) (map (map g) parts) = map g (PyStr.join sep parts).
Proof.
  induction parts as [|p rest IH]; [reflexivity|].
  destruct rest as [|p' rest']; [reflexivity|].
  change (PyStr.join (map g sep) (map (map g) (p :: p' :: rest')))
    with (map g p ++ map g sep
          ++ PyStr.join (map g sep) (map (map g) (p' :: rest'))).
  rewrite IH.
  change (PyStr.join sep (p :: p' :: rest'))
    with (p ++ sep ++ PyStr.join sep (p' :: rest')).
  now rewrite !map_app.
Qed.

(** A map on characters that keeps line feeds and whitespace apart from the
    rest goes through the line normalisation. *)
Lemma normalize_lines_map (t : text) :
  (forall c, (g c =? LF) = (c =? LF)) ->
  (forall c, PyStr.isspace (g c) = PyStr.isspace c) ->
  normalize_lines (map g t) = map g (normalize_lines t).
Proof.
  intros HLF Hsp. unfold normalize_lines.
  rewrite split_map by exact HLF. rewrite map_map.
  rewrite <- join_map. rewrite map_map. f_equal.
  - simpl. f_equal. specialize (HLF LF). rewrite N.eqb_refl in HLF.
    now apply N.eqb_eq in HLF.
  - apply map_ext. intros line. now apply rstrip_map.
Qed.

End CharMaps.

Lemma manual_correction_keeps_class (c : char) :
  (manual_correction c =? LF) = (c =? LF)
  /\ PyStr.isspace (manual_correction c) = PyStr.isspace c.
Proof.
  unfold manual_correction.
  repeat match goal with
         | |- context [c =? ?k] =>
             lazymatch k with
             | LF => fail
             | _ => destruct (N.eqb_spec c k) as [->|?];
                    [split; reflexivity|]
             end
         end.
  split; reflexivity.
Qed.

(** The correction pass and the line normalisation commute. *)
Lemma corrections_normalize_commute (t : text) :
  normalize_lines (apply_manual_corrections t)
  = apply_manual_corrections (normalize_lines t).
Proof.
  rewrite !apply_manual_corrections_map.
  apply normalize_lines_map; intros c; apply manual_correction_keeps_class.
Qed.

Lemma pipeline_idempotent (x : text) :
  normalize_lines (apply_manual_corrections
                     (normalize_lines (apply_manual_corrections x)))
  = normalize_lines (apply_manual_corrections x).
Proof.
  rewrite <- (corrections_normalize_commute (apply_manual_corrections x)).
  rewrite normalize_lines_twice.
  destruct (corrections_twice x) as [_ ->]. reflexivity.
Qed.

(** X6. With a transform that returns its argument, converting a converted
    text changes nothing: the pipeline is idempotent. *)
Theorem convert_identity_idempotent (x : text) (w : World) :
  exists y w1 w2,
    convert_chinese_in_text identity_transform x w = (Ok y, w1)
    /\ convert_chinese_in_text identity_transform y w1 = (Ok y, w2).
Proof.
  destruct (convert_identity x w) as (calls1 & H1).
  destruct (convert_identity (normalize_lines (apply_manual_corrections x))
                             (log_calls w calls1)) as (calls2 & H2).
  rewrite pipeline_idempotent in H2.
  eexists _, _, _. split; [exact H1|exact H2].
Qed.

(** X7. The correction pass and the line normalisation commute: the
    corrections neither create nor remove whitespace or line feeds. *)
Theorem corrections_commute_with_normalize (t : text) :
  normalize_lines (apply_manual_corrections t)
  = apply_manual_corrections (normalize_lines t).
Proof. apply corrections_normalize_commute. Qed.

(** X8. The line normalisation leaves a text as it is exactly when none of
    its lines ends in whitespace. *)
Theorem normalize_lines_fixed_point (x : text) :
  normalize_lines x = x
  <-> Forall (fun line => PyStr.rstrip line = line) (PyStr.split LF x).
Proof.
  split.
  - intros H. pose proof (split_normalize_lines x) as Hs. rewrite H in Hs.
    revert Hs. generalize (PyStr.split LF x) as ls.
    induction ls as [|line ls IH]; intros Hs; [constructor|].
    simpl in Hs. injection Hs as Hl Hls.
    constructor; [symmetry; exact Hl|apply IH; exact Hls].
  - intros H. unfold normalize_lines.
    replace (map PyStr.rstrip (PyStr.split LF x)) with (PyStr.split LF x).
    + apply join_split.
    + induction H as [|line ls Hl Hls IH]; [reflexivity|].
      simpl. now rewrite Hl, <- IH.
Qed.

(** ** The per-file driver, case by case *)

Lemma print_lines_nil (w : World) : print_lines w [] = w.
Proof. destruct w. unfold print_lines. simpl. now rewrite app_nil_r. Qed.

Lemma print_lines_app (w : World) (a b : list text) :
  print_lines (print_lines w a) b = print_lines w (a ++ b).
Proof. unfold print_lines. simpl. now rewrite app_assoc. Qed.

Lemma path_eqb_eq (p q : path) : path_eqb p q = true <-> p = q.
Proof.
  unfold path_eqb. destruct (list_eq_dec N.eq_dec p q); split; congruence.
Qed.

Lemma path_eqb_refl (p : path) : path_eqb p p = true.
Proof. now apply path_eqb_eq. Qed.

Section DriverCases.

Variable cc : text -> exn + text.

(** The pipeline runs the same way in every world. *)
Lemma convert_run (content : text) (w : World) :
  convert_chinese_in_text cc content w
  = (fst (convert_chinese_in_text cc content quiet_world),
     log_calls w (conversion_calls cc content)).
Proof.
  destruct (convert_outcome cc content) as (calls & o & H & _).
  unfold conversion_calls. rewrite !H. reflexivity.
Qed.

Lemma convert_not_out_of_fuel (content : text) :
  fst (convert_chinese_in_text cc content quiet_world) <> OutOfFuel.
Proof.
  destruct (convert_outcome cc content) as (calls & o & H & He).
  rewrite H. simpl. intros ->. exact He.
Qed.

Lemma run_unreadable (p : path) (w : World) :
  files w p = None ->
  convert_json_file cc p w
  = (Ok false,
     print_lines w [converting_line p; error_line p (io_error w p)]).
Proof.
  intros Hfile.
  unfold convert_json_file, try_except, bind, print, read_file. simpl.
  rewrite Hfile. unfold print_lines. simpl. now rewrite <- app_assoc.
Qed.

Lemma run_raises (p : path) (w : World) (content : text) (e : exn) :
  files w p = Some content ->
  fst (convert_chinese_in_text cc content quiet_world) = Raise e ->
  convert_json_file cc p w
  = (Ok false,
     print_lines (log_calls w (conversion_calls cc content))
                 [converting_line p; error_line p e]).
Proof.
  intros Hfile He.
  unfold convert_json_file, try_except, bind, print, read_file. simpl.
  rewrite Hfile, convert_run, He. unfold print_lines, log_calls. simpl.
  now rewrite <- app_assoc.
Qed.

Lemma run_unwritable (p : path) (w : World) (content r : text) :
  files w p = Some content ->
  fst (convert_chinese_in_text cc content quiet_world) = Ok r ->
  writable w p = false ->
  convert_json_file cc p w
  = (Ok false,
     print_lines (log_calls w (conversion_calls cc content))
                 [converting_line p; error_line p (io_error w p)]).
Proof.
  intros Hfile Hr Hw.
  unfold convert_json_file, try_except, bind, print, read_file, write_file.
  simpl. rewrite Hfile, convert_run, Hr. simpl. rewrite Hw.
  unfold print_lines, log_calls. simpl. now rewrite <- app_assoc.
Qed.

Lemma run_writes (p : path) (w : World) (content r : text) :
  files w p = Some content ->
  fst (convert_chinese_in_text cc content quiet_world) = Ok r ->
  writable w p = true ->
  convert_json_file cc p w
  = (Ok true,
     mkWorld (cc_calls w ++ conversion_calls cc content)
             (fun q => if path_eqb q p then Some r else files w q)
             (writable w) (io_error w)
             (stdout w ++ [converting_line p])).
Proof.
  intros Hfile Hr Hw.
  unfold convert_json_file, try_except, bind, print, read_file, write_file.
  simpl. rewrite Hfile, convert_run, Hr. simpl. now rewrite Hw.
Qed.

(** Whatever the file and the transform, the driver returns a flag -- the
    one [converts] computes -- and changes at most the file it was given. *)
Lemma run_effect (p : path) (w : World) :
  exists w' calls lines,
    convert_json_file cc p w = (Ok (converts cc w p), w')
    /\ (forall q, files w' q
                  = if path_eqb q p then file_after cc w p else files w q)
    /\ writable w' = writable w
    /\ io_error w' = io_error w
    /\ cc_calls w' = cc_calls w ++ calls
    /\ stdout w' = stdout w ++ converting_line p :: lines
    /\ length lines = if converts cc w p then 0%nat else 1%nat.
Proof.
  unfold converts, file_after, converted_text.
  destruct (files w p) as [content|] eqn:Hfile.
  - destruct (fst (convert_chinese_in_text cc content quiet_world))
      as [r|e|] eqn:Hrun.
    + destruct (writable w p) eqn:Hw.
      * rewrite (run_writes p w content r Hfile Hrun Hw).
        eexists _, _, []. split; [reflexivity|]. simpl.
        repeat split; reflexivity.
      * rewrite (run_unwritable p w content r Hfile Hrun Hw).
        eexists _, _, [_]. split; [reflexivity|]. simpl.
        repeat split; try reflexivity.
        intros q. destruct (path_eqb q p) eqn:E; [|reflexivity].
        apply path_eqb_eq in E. now subst q.
    + rewrite (run_raises p w content e Hfile Hrun).
      eexists _, _, [_]. split; [reflexivity|]. simpl.
      repeat split; try reflexivity.
      intros q. destruct (path_eqb q p) eqn:E; [|reflexivity].
      apply path_eqb_eq in E. now subst q.
    + exfalso. exact (convert_not_out_of_fuel content Hrun).
  - rewrite (run_unreadable p w Hfile).
    exists (print_lines w [converting_line p; error_line p (io_error w p)]),
      [], [error_line p (io_error w p)].
    split; [reflexivity|]. simpl. rewrite app_nil_r.
    repeat split; try reflexivity.
    intros q. destruct (path_eqb q p) eqn:E; [|reflexivity].
    apply path_eqb_eq in E. now subst q.
Qed.

End DriverCases.


(** X10. On a file that cannot be read the driver fails before the
    transform is called at all: it returns false, and all that changes is
    the output, with the announcing line and an error line that carries the
    first 100 characters of the message of the exception [open] raised. *)
Theorem convert_json_file_unreadable (cc : text -> exn + text) (p : path)
  (w : World) :
  files w p = None ->
  convert_json_file cc p w
  = (Ok false,
     print_lines w [converting_line p; error_line p (io_error w p)]).
Proof. apply run_unreadable. Qed.

Lemma convert_json_file_unreadable_witness :
  files quiet_world (lit "missing.json") = None
  /\ convert_json_file identity_transform (lit "missing.json") quiet_world
     = (Ok false,
        print_lines quiet_world
          [converting_line (lit "missing.json");
           error_line (lit "missing.json")
                      (io_error quiet_world (lit "missing.json"))]).
Proof.
  split; [reflexivity|].
  apply (convert_json_file_unreadable identity_transform (lit "missing.json")
           quiet_world).
  reflexivity.
Defined.

(** X11. When the file is read and converted and can be written, the driver
    returns true, the file holds the converted text, every other file is as
    it was and only the announcing line is printed. *)
Theorem convert_json_file_writes_converted (cc : text -> exn + text)
  (p : path) (w : World) (content r : text) :
  files w p = Some content ->
  fst (convert_chinese_in_text cc content w) = Ok r ->
  writable w p = true ->
  exists w',
    convert_json_file cc p w = (Ok true, w')
    /\ files w' p = Some r
    /\ (forall q, q <> p -> files w' q = files w q)
    /\ stdout w' = stdout w ++ [converting_line p].
Proof.
  intros Hfile Hr Hw. rewrite convert_run in Hr. simpl in Hr.
  rewrite (run_writes cc p w content r Hfile Hr Hw).
  eexists. split; [reflexivity|]. simpl. rewrite path_eqb_refl.
  split; [reflexivity|]. split; [|reflexivity].
  intros q Hq. destruct (path_eqb q p) eqn:E; [|reflexivity].
  apply path_eqb_eq in E. contradiction.
Qed.

Lemma convert_json_file_writes_converted_witness :
  files (world_with_file (lit "a.json") [35023; 32; 10]) (lit "a.json")
  = Some [35023; 32; 10]
  /\ fst (convert_chinese_in_text identity_transform [35023; 32; 10]
            (world_with_file (lit "a.json") [35023; 32; 10]))
     = Ok [35041; 10]
  /\ writable (world_with_file (lit "a.json") [35023; 32; 10]) (lit "a.json")
     = true
  /\ exists w',
       convert_json_file identity_transform (lit "a.json")
         (world_with_file (lit "a.json") [35023; 32; 10]) = (Ok true, w')
       /\ files w' (lit "a.json") = Some [35041; 10]
       /\ (forall q, q <> lit "a.json" ->
                     files w' q
                     = files (world_with_file (lit "a.json") [35023; 32; 10])
                             q)
       /\ stdout w'
          = stdout (world_with_file (lit "a.json") [35023; 32; 10])
            ++ [converting_line (lit "a.json")].
Proof.
  repeat (split; [reflexivity|]).
  apply (convert_json_file_writes_converted identity_transform (lit "a.json")
           (world_with_file (lit "a.json") [35023; 32; 10])
           [35023; 32; 10] [35041; 10]); reflexivity.
Defined.

(** X12. When the converted text cannot be written, the driver returns
    false and no file changes, although the transform was called on every
    segment; the error line carries the message of what [open] raised. *)
Theorem convert_json_file_unwritable (cc : text -> exn + text) (p : path)
  (w : World) (content r : text) :
  files w p = Some content ->
  fst (convert_chinese_in_text cc content w) = Ok r ->
  writable w p = false ->
  convert_json_file cc p w
  = (Ok false,
     print_lines (log_calls w (conversion_calls cc content))
                 [converting_line p; error_line p (io_error w p)]).
Proof.
  intros Hfile Hr Hw. rewrite convert_run in Hr. simpl in Hr.
  exact (run_unwritable cc p w content r Hfile Hr Hw).
Qed.

Lemma convert_json_file_unwritable_witness :
  files (read_only_world (lit "a.json") sample_doc) (lit "a.json")
  = Some sample_doc
  /\ fst (convert_chinese_in_text identity_transform sample_doc
            (read_only_world (lit "a.json") sample_doc))
     = Ok sample_doc
  /\ writable (read_only_world (lit "a.json") sample_doc) (lit "a.json")
     = false
  /\ convert_json_file identity_transform (lit "a.json")
       (read_only_world (lit "a.json") sample_doc)
     = (Ok false,
        print_lines
          (log_calls (read_only_world (lit "a.json") sample_doc)
                     (conversion_calls identity_transform sample_doc))
          [converting_line (lit "a.json");
           error_line (lit "a.json")
             (io_error (read_only_world (lit "a.json") sample_doc)
                       (lit "a.json"))]).
Proof.
  repeat (split; [reflexivity|]).
  apply (convert_json_file_unwritable identity_transform (lit "a.json")
           (read_only_world (lit "a.json") sample_doc) sample_doc sample_doc);
    reflexivity.
Defined.

(** ** The batch *)

Section BatchFacts.

Variable cc : text -> exn + text.
Variable path_name : path -> text.


(** Each file is converted or counted as failed, whatever happens to the
    others. *)
Lemma convert_all_counts (l : list path) (s : nat) (failed : list text)
  (w : World) :
  exists n names w',
    convert_all cc path_name l s failed w
    = (Ok ((s + n)%nat, failed ++ names), w')
    /\ (n + length names = length l)%nat.
Proof.
  revert s failed w. induction l as [|p l IH]; intros s failed w; simpl.
  - exists 0%nat, [], w. unfold ret. now rewrite Nat.add_0_r, app_nil_r.
  - destruct (run_effect cc p w) as (w1 & _ & _ & Hrun & _).
    unfold bind. rewrite Hrun. destruct (converts cc w p).
    + destruct (IH (s + 1)%nat failed w1) as (n & names & w' & H & Hn).
      exists (S n), names, w'. rewrite H. split; [|simpl; lia].
      now replace (s + 1 + n)%nat with (s + S n)%nat by lia.
    + destruct (IH s (failed ++ [path_name p]) w1)
        as (n & names & w' & H & Hn).
      exists n, (path_name p :: names), w'. rewrite H. split; [|simpl; lia].
      now rewrite <- app_assoc.
Qed.


Lemma print_names_prints (names : list text) (w : World) :
  print_names names w
  = (Ok tt,
     print_lines w (map (fun filename => lit "  - " ++ filename) names)).
Proof.
  revert w. induction names as [|n names IH]; intros w; simpl.
  - unfold ret. now rewrite print_lines_nil.
  - unfold bind, print. rewrite IH. unfold print_lines. simpl.
    now rewrite <- app_assoc.
Qed.

Lemma report_failures_prints (failed : list text) (w : World) :
  report_failures failed w = (Ok tt, print_lines w (failure_report failed)).
Proof.
  destruct failed as [|n failed].
  - simpl. unfold ret. now rewrite print_lines_nil.
  - unfold report_failures, failure_report, bind.
    unfold print at 1. rewrite print_names_prints.
    destruct (10 <? length (n :: failed))%nat.
    + unfold print, print_lines. simpl stdout.
      cbn [cc_calls files writable io_error].
      now rewrite <- !app_assoc.
    + unfold ret, print_lines. simpl stdout.
      cbn [cc_calls files writable io_error].
      now rewrite <- !app_assoc, app_nil_r.
Qed.

Lemma failure_report_length (failed : list text) :
  (length (failure_report failed) <= 12)%nat
  /\ length (failure_report failed)
     = match failed with
       | [] => 0%nat
       | _ :: _ => (1 + Nat.min 10 (length failed)
                    + if (10 <? length failed)%nat then 1 else 0)%nat
       end.
Proof.
  destruct failed as [|n failed]; [simpl; split; [lia|reflexivity]|].
  unfold failure_report. rewrite length_app. cbn [length].
  rewrite length_map, length_firstn.
  destruct (10 <? S (length failed))%nat; cbn [length]; split; lia.
Qed.

Lemma main_run (root_json config_json : list path) (w : World) :
  exists n names w1,
    convert_all cc path_name (root_json ++ config_json) 0 []
      (print_lines w [found_line (length (root_json ++ config_json))])
    = (Ok (n, names), w1)
    /\ (n + length names = length (root_json ++ config_json))%nat
    /\ main cc path_name root_json config_json w
       = (Ok tt,
          print_lines w1
            (summary_line n (length (root_json ++ config_json))
             :: failure_report names)).
Proof.
  destruct (convert_all_counts (root_json ++ config_json) 0 []
              (print_lines w [found_line (length (root_json ++ config_json))]))
    as (n & names & w1 & H & Hn).
  simpl in H. exists n, names, w1. split; [exact H|]. split; [exact Hn|].
  unfold main. cbn [app]. unfold bind at 1. unfold print at 1.
  fold (found_line (length (root_json ++ config_json))).
  fold (print_lines w [found_line (length (root_json ++ config_json))]).
  unfold bind at 1. rewrite H. cbn [fst snd].
  unfold bind, print. rewrite report_failures_prints.
  fold (summary_line n (length (root_json ++ config_json))).
  unfold print_lines. simpl. now rewrite <- app_assoc.
Qed.

End BatchFacts.




(** The three files of the sample batch: the first and the third are
    converted, the second, on which the transform raises, is reported. *)
Lemma batch_sample_run :
  fst (convert_all sample_cc (fun p => p) batch_files 0 [] batch_world)
  = Ok (2%nat, [lit "b.json"])
  /\ file_after sample_cc batch_world (lit "a.json") = Some [35041]
  /\ file_after sample_cc batch_world (lit "b.json") = Some sample_doc
  /\ file_after sample_cc batch_world (lit "c.json") = Some (lit "{}").
Proof. repeat split; reflexivity. Qed.

(** X14. Whatever the list of paths -- repeated paths included -- and
    whatever the transform, the loop of [main] ends without an exception and
    accounts for every path once: the successes it adds and the names it
    appends number as many as the paths. *)
Theorem batch_counts_every_file (cc : text -> exn + text)
  (path_name : path -> text) (l : list path) (s : nat)
  (failed : list text) (w : World) :
  exists n names w',
    convert_all cc path_name l s failed w
    = (Ok ((s + n)%nat, failed ++ names), w')
    /\ (n + length names = length l)%nat.
Proof. apply convert_all_counts. Qed.

(** X15. The failure report prints nothing when no file failed; otherwise a
    header with the number of failures, the first ten names in order and,
    when there are more than ten, one line counting the rest: at most
    twelve lines, however many files failed. *)
Theorem report_failures_bounded (failed : list text) (w : World) :
  report_failures failed w = (Ok tt, print_lines w (failure_report failed))
  /\ (length (failure_report failed) <= 12)%nat
  /\ length (failure_report failed)
     = match failed with
       | [] => 0%nat
       | _ :: _ => (1 + Nat.min 10 (length failed)
                    + if (10 <? length failed)%nat then 1 else 0)%nat
       end.
Proof.
  split; [apply report_failures_prints|apply failure_report_length].
Qed.

(** X16. [main] always completes: whatever the files matched and whatever
    the transform does, it returns without an exception, having announced
    the number of files, run the loop over the files of the first glob
    followed by those of the second, and printed the summary line -- whose
    count of successes and the failures reported add up to the number of
    files -- and the failure report. *)
Theorem main_always_completes (cc : text -> exn + text)
  (path_name : path -> text) (root_json config_json : list path)
  (w : World) :
  exists n names w1,
    convert_all cc path_name (root_json ++ config_json) 0 []
      (print_lines w [found_line (length (root_json ++ config_json))])
    = (Ok (n, names), w1)
    /\ (n + length names = length (root_json ++ config_json))%nat
    /\ main cc path_name root_json config_json w
       = (Ok tt,
          print_lines w1
            (summary_line n (length (root_json ++ config_json))
             :: failure_report names)).
Proof. apply main_run. Qed.

(** X17. The pipeline touches the world only by calling the transform, and
    runs the same way in every world.  It never fails on its own: it ends
    within its fuel, and when it raises, the exception is the one the
    transform raised on the last call made, every call before having
    returned. *)
Theorem convert_raises_only_from_transform (cc : text -> exn + text)
  (content : text) :
  exists calls o,
    (forall w, convert_chinese_in_text cc content w = (o, log_calls w calls))
    /\ match o with
       | Ok _ => Forall (returns cc) calls
       | Raise e =>
           exists before s,
             calls = before ++ [s] /\ Forall (returns cc) before
             /\ cc s = inl e
       | OutOfFuel => False
       end.
Proof. apply convert_outcome. Qed.

(** ** A transform that raises is called on the segments, up to the raise *)

Section Prefix.

Variable cc : text -> exn + text.

Lemma runs_ret {A} (a : A) : runs_as_far_as (ret a) (ret a).
Proof.
  exists [], a. split; [|left]; intros w; unfold ret;
    now rewrite log_calls_nil.
Qed.

Lemma runs_bind {A B} (m m' : M A) (k k' : A -> M B) :
  runs_as_far_as m m' -> (forall a, runs_as_far_as (k a) (k' a)) ->
  runs_as_far_as (bind m k) (bind m' k').
Proof.
  intros (c1 & a1 & Hm' & Hm) Hk.
  destruct (Hk a1) as (c2 & a2 & Hk' & Hk2).
  exists (c1 ++ c2), a2. split.
  { intros w. unfold bind. now rewrite Hm', Hk', log_calls_app. }
  destruct Hm as [Hm|(e & calls & rest & -> & Hm)].
  - destruct Hk2 as [Hk2|(e & calls & rest & -> & Hk2)].
    + left. intros w. unfold bind. now rewrite Hm, Hk2, log_calls_app.
    + right. exists e, (c1 ++ calls), rest. split; [now rewrite app_assoc|].
      intros w. unfold bind. now rewrite Hm, Hk2, log_calls_app.
  - right. exists e, calls, (rest ++ c2). split; [now rewrite app_assoc|].
    intros w. unfold bind. now rewrite Hm.
Qed.

Lemma runs_cc_convert (s : text) :
  runs_as_far_as (cc_convert cc s)
                 (cc_convert (total_transform (completion cc)) s).
Proof.
  exists [s], (completion cc s). split; [reflexivity|].
  unfold cc_convert, completion. destruct (cc s) as [e|t].
  - right. exists e, [s], []. split; reflexivity.
  - left. reflexivity.
Qed.

Lemma runs_loop_body (c : char) (st : ScanState) :
  runs_as_far_as (loop_body cc c st)
                 (loop_body (total_transform (completion cc)) c st).
Proof.
  unfold loop_body.
  repeat match goal with
         | |- runs_as_far_as (if ?b then _ else _) _ => destruct b
         | |- runs_as_far_as (ret _) _ => apply runs_ret
         | |- runs_as_far_as (bind _ _) _ => apply runs_bind
         | |- runs_as_far_as (cc_convert _ _) _ => apply runs_cc_convert
         | |- forall _, _ => intro
         end.
Qed.

Lemma runs_scan_chars (chars : text) (st : ScanState) :
  runs_as_far_as (scan_chars cc chars st)
                 (scan_chars (total_transform (completion cc)) chars st).
Proof.
  revert st. induction chars as [|c chars IH]; intros st; simpl.
  - apply runs_ret.
  - apply runs_bind; [apply runs_loop_body|exact IH].
Qed.

Lemma runs_final_flush (st : ScanState) :
  runs_as_far_as (final_flush cc st)
                 (final_flush (total_transform (completion cc)) st).
Proof.
  unfold final_flush. destruct (nonempty _).
  - apply runs_bind; [apply runs_cc_convert|]. intro. apply runs_ret.
  - apply runs_ret.
Qed.

Lemma runs_ext {A} (m1 m1' m2 m2' : M A) :
  (forall w, m1 w = m2 w) -> (forall w, m1' w = m2' w) ->
  runs_as_far_as m2 m2' -> runs_as_far_as m1 m1'.
Proof.
  intros E E' (c & a & H' & H). exists c, a. split.
  - intros w. now rewrite E'.
  - destruct H as [H|(e & calls & rest & Hc & H)].
    + left. intros w. now rewrite E.
    + right. exists e, calls, rest. split; [exact Hc|].
      intros w. now rewrite E.
Qed.

Lemma runs_scan (x : text) :
  runs_as_far_as (scan cc x) (scan (total_transform (completion cc)) x).
Proof.
  unfold scan. apply runs_bind; [|apply runs_final_flush].
  eapply runs_ext; [apply scan_loop_scan_chars..|].
  apply runs_scan_chars.
Qed.

Lemma scan_calls_prefix (x : text) :
  exists pieces,
    concat (map piece_source pieces) = x
    /\ ((forall w,
            scan cc x w
            = (Ok (map (piece_output (completion cc)) pieces),
               log_calls w (piece_calls pieces)))
        \/ exists e before s rest,
             piece_calls pieces = before ++ [s] ++ rest
             /\ Forall (returns cc) before
             /\ cc s = inl e
             /\ forall w, scan cc x w = (Raise e, log_calls w (before ++ [s]))).
Proof.
  destruct (scan_pieces x) as (pieces & E & _ & Hf).
  exists pieces. split; [exact E|].
  destruct (runs_scan x) as (calls' & a' & H' & H).
  pose proof (H' quiet_world) as Hq. rewrite Hf in Hq.
  injection Hq as Ha Hc. subst calls' a'.
  destruct H as [H|(e & calls & rest & Hcalls & H)]; [left; exact H|].
  right.
  destruct (only_calls_scan cc x) as (calls0 & o & H0 & He).
  pose proof (H quiet_world) as Hq. rewrite H0 in Hq.
  injection Hq as Ho Hc. subst o calls0. destruct He as (before & s & -> & Hbefore & Hs).
  exists e, before, s, rest. split; [now rewrite Hcalls, <- app_assoc|].
  split; [exact Hbefore|]. split; [exact Hs|exact H].
Qed.

End Prefix.

(** X18. Whatever the transform, it is called on the segments of the text,
    in order.  The text splits into pieces whose concatenation it is; either
    every call returns, the scan yields the pieces with each segment replaced
    by what the transform returned and the calls are the segments, or the
    scan raises what the transform raised, and the calls made are the
    segments up to and including the first the transform raised on. *)
Theorem scan_calls_are_segments (cc : text -> exn + text) (x : text) :
  exists pieces,
    concat (map piece_source pieces) = x
    /\ ((forall w,
            scan cc x w
            = (Ok (map (piece_output (completion cc)) pieces),
               log_calls w (piece_calls pieces)))
        \/ exists e before s rest,
             piece_calls pieces = before ++ [s] ++ rest
             /\ Forall (returns cc) before
             /\ cc s = inl e
             /\ forall w, scan cc x w = (Raise e, log_calls w (before ++ [s]))).
Proof. apply scan_calls_prefix. Qed.

(** X19. A transform that works character by character and keeps the two
    quotes makes the scan transparent: joining [result] gives the text with
    every character transformed. *)
Theorem scan_charwise_transform (h : char -> char) (x : text) (w : World) :
  (forall q, is_quote q = true -> h q = q) ->
  exists r calls,
    scan (total_transform (map h)) x w = (Ok r, log_calls w calls)
    /\ PyStr.join [] r = map h x.
Proof.
  intros Hh. destruct (scan_pieces x) as (pieces & E & Q & H).
  exists (map (piece_output (map h)) pieces), (piece_calls pieces).
  split; [apply H|]. rewrite join_nil_concat, <- E.
  clear E H. induction pieces as [|p ps IH]; [reflexivity|].
  simpl in Q. apply andb_true_iff in Q as [Qp Qs].
  simpl. rewrite map_app, IH by exact Qs. f_equal.
  destruct p as [s|q]; [reflexivity|]. simpl in *. now rewrite Hh.
Qed.

Lemma scan_charwise_transform_witness :
  (forall q, is_quote q = true -> (fun c => if c =? 97 then 65 else c) q = q)
  /\ exists r calls,
       scan (total_transform (map (fun c => if c =? 97 then 65 else c)))
            (lit "a 'a' a") quiet_world
       = (Ok r, log_calls quiet_world calls)
       /\ PyStr.join [] r
          = map (fun c => if c =? 97 then 65 else c) (lit "a 'a' a").
Proof.
  assert (H : forall q, is_quote q = true ->
                        (fun c => if c =? 97 then 65 else c) q = q).
  { intros q Hq. unfold is_quote in Hq. apply orb_true_iff in Hq.
    destruct Hq as [Hq|Hq]; apply N.eqb_eq in Hq; subst q; reflexivity. }
  split; [exact H|].
  exact (scan_charwise_transform (fun c => if c =? 97 then 65 else c)
           (lit "a 'a' a") quiet_world H).
Defined.
